(** * The user registry of examples/sample_project/advanced.cpp

    A shallow embedding of the classes [User], [UserManager] and
    [DataProcessor] and the properties of them that the specification states.

    Conventions of the embedding:
    - [std::string] is [string] (a sequence of 8-bit characters);
    - [int] is [Z]; where the source does arithmetic on [int] the result is
      wrapped to 32 bits, two's complement ([wrap_int]);
    - a [size_t] position that may be [string::npos] is an [option nat],
      [None] standing for [npos];
    - a C++ exception is the left summand of [result];
    - a [shared_ptr<User>] held by the registry is a location [loc] of a
      store [loc -> User], so that two handles of one object alias;
    - the members of [std::string] and [std::stoi] are written out as the
      C++ standard library defines them;
    - [std::sort], whose algorithm the standard leaves open, is a parameter
      constrained by the contract the standard gives it. *)

From Stdlib Require Import ZArith Ascii Floats Uint63.
From stdpp Require Import functions gmap strings list sorting.

Local Open Scope Z_scope.

(** ** Exceptions *)

Inductive exn : Set :=
| invalid_argument
| out_of_range.

Definition result (A : Type) : Type := exn + A.

Definition throw {A} (e : exn) : result A := inl e.

#[global] Instance result_ret : MRet result := fun A a => inr a.
#[global] Instance result_bind : MBind result := fun A B k m =>
  match m with
  | inl e => inl e
  | inr a => k a
  end.

(** ** The part of [std::string] the program uses *)

Module Str.

(** [str.find(ch, pos)]: the index of the first [ch] at or after [pos]. *)
Fixpoint find (str : string) (ch : ascii) (pos : nat) : option nat :=
  match str with
  | EmptyString => None
  | String a rest =>
      match pos with
      | O => if Ascii.eqb a ch then Some O else S <$> find rest ch O
      | S pos' => S <$> find rest ch pos'
      end
  end.

(** [str.find_first_not_of(ch)]. *)
Fixpoint find_first_not_of (str : string) (ch : ascii) : option nat :=
  match str with
  | EmptyString => None
  | String a rest =>
      if Ascii.eqb a ch then S <$> find_first_not_of rest ch else Some O
  end.

(** [str.find_last_not_of(ch)]. *)
Fixpoint find_last_not_of (str : string) (ch : ascii) : option nat :=
  match str with
  | EmptyString => None
  | String a rest =>
      match find_last_not_of rest ch with
      | Some i => Some (S i)
      | None => if Ascii.eqb a ch then None else Some O
      end
  end.

(** The first [count] characters; all of them for [count = npos]. *)
Fixpoint prefix (str : string) (count : nat) : string :=
  match count, str with
  | S n, String a rest => String a (prefix rest n)
  | _, _ => EmptyString
  end.

Fixpoint suffix (str : string) (pos : nat) : string :=
  match pos, str with
  | S n, String _ rest => suffix rest n
  | _, _ => str
  end.

(** [str.substr(pos, count)]: throws [out_of_range] when [pos > size()],
    and otherwise clamps [count] to what is left of [str]. *)
Definition substr (str : string) (pos : nat) (count : option nat) : result string :=
  if (String.length str <? pos)%nat then throw out_of_range
  else match count with
       | Some n => mret (prefix (suffix str pos) n)
       | None => mret (suffix str pos)
       end.

(** [pos + 1] on a [size_t]: [npos + 1] wraps around to [0]. *)
Definition succ_pos (pos : option nat) : nat :=
  match pos with
  | Some p => S p
  | None => O
  end.

End Str.

(** ** [std::stoi] *)

Definition INT_MIN : Z := - 2 ^ 31.
Definition INT_MAX : Z := 2 ^ 31 - 1.

(** [isspace] in the "C" locale: space, \t, \n, \v, \f, \r. *)
Definition isspace (c : ascii) : bool :=
  let n := nat_of_ascii c in
  (n =? 32)%nat || ((9 <=? n)%nat && (n <=? 13)%nat).

Definition digit_of (c : ascii) : option Z :=
  let n := nat_of_ascii c in
  if ((48 <=? n)%nat && (n <=? 57)%nat)%bool then Some (Z.of_nat n - 48) else None.

Fixpoint skip_space (s : string) : string :=
  match s with
  | String a rest => if isspace a then skip_space rest else s
  | EmptyString => s
  end.

(** The digits a string starts with, most significant first. *)
Fixpoint leading_digits (s : string) : list Z :=
  match s with
  | String a rest =>
      match digit_of a with
      | Some d => d :: leading_digits rest
      | None => []
      end
  | EmptyString => []
  end.

Definition decimal (ds : list Z) : Z :=
  fold_left (fun acc d => 10 * acc + d) ds 0.

(** The sign [strtol] accepts in front of the digits. *)
Definition split_sign (s : string) : bool * string :=
  match s with
  | String "-" rest => (true, rest)
  | String "+" rest => (false, rest)
  | _ => (false, s)
  end%char.

(** [std::stoi(str)], base 10, as [strtol] reads it: white space, an
    optional sign, then digits; what follows the digits is ignored. No digit:
    [invalid_argument]; a value that is no [int]: [out_of_range]. *)
Definition stoi (str : string) : result Z :=
  let '(neg, body) := split_sign (skip_space str) in
  match leading_digits body with
  | [] => throw invalid_argument
  | ds =>
      let v := if neg then - decimal ds else decimal ds in
      if (INT_MIN <=? v) && (v <=? INT_MAX) then mret v else throw out_of_range
  end.

(** ** [std::to_string] *)

Definition digit_char (d : Z) : ascii := ascii_of_nat (Z.to_nat (48 + d)).

(** The decimal digits of [n >= 0] in front of [acc], the last digit first
    put; [fuel] bounds the number of digits after the first. *)
Fixpoint to_digits (fuel : nat) (n : Z) (acc : string) : string :=
  let acc' := String (digit_char (n mod 10)) acc in
  match fuel with
  | O => acc'
  | S fuel' => if n <? 10 then acc' else to_digits fuel' (n / 10) acc'
  end.

(** [std::to_string(int)]: the decimal digits, behind a '-' for a negative
    value. A number has no more decimal digits than binary ones. *)
Definition to_string (z : Z) : string :=
  if z <? 0 then String "-" (to_digits (Z.to_nat (Z.log2 (- z))) (- z) EmptyString)
  else to_digits (Z.to_nat (Z.log2 z)) z EmptyString.

(** ** class User *)

Record User : Set := mkUser {
  name : string;
  age : Z;
  email : string
}.

Definition validateName (u : User) : bool :=
  negb (String.eqb (name u) EmptyString).

Definition validateAge (u : User) : bool :=
  (18 <=? age u) && (age u <=? 150).

Definition validateEmail (u : User) : bool :=
  match Str.find (email u) "@"%char 0 with
  | Some _ => true
  | None => false
  end.

Definition validate (u : User) : bool :=
  validateName u && validateAge u && validateEmail u.

Definition isAdult (u : User) : bool := 18 <=? age u.

Definition formatUserInfo (u : User) : string :=
  name u +:+ " (" +:+ to_string (age u) +:+ " years old) - " +:+ email u.

Definition getSummary (u : User) : string := formatUserInfo u.

Definition setName (n : string) (u : User) : User := mkUser n (age u) (email u).
Definition setAge (a : Z) (u : User) : User := mkUser (name u) a (email u).
Definition setEmail (e : string) (u : User) : User := mkUser (name u) (age u) e.

(** ** class UserManager

    A [shared_ptr<User>] is the location of the object it points to; the
    store maps every location to the current value of its object, so a setter
    called through one handle is seen through every other handle of the
    object. The handles given to the manager are not null (the source
    dereferences them unchecked). The manager's own state is the map
    [users]; what [logError] and [logInfo] write is kept, line by line, in
    [output]. *)

Definition loc : Set := nat.

#[global] Instance loc_eq_dec : EqDecision loc := Nat.eq_dec.

Inductive stream : Set :=
| Cout
| Cerr.

Record World : Type := mkWorld {
  store : loc -> User;
  users : gmap string loc;
  output : list (stream * string)
}.

Definition M (A : Type) : Type := World -> A * World.

#[global] Instance M_ret : MRet M := fun A a w => (a, w).
#[global] Instance M_bind : MBind M := fun A B k m w =>
  let '(a, w') := m w in k a w'.

Definition deref (p : loc) : M User := fun w => (store w p, w).

Definition write (s : stream) (line : string) : M unit := fun w =>
  (tt, mkWorld (store w) (users w) (output w ++ [(s, line)])).

Definition users_find (key : string) : M (option loc) := fun w =>
  (users w !! key, w).

(** [users[key] = p]. *)
Definition users_assign (key : string) (p : loc) : M unit := fun w =>
  (tt, mkWorld (store w) (<[key := p]> (users w)) (output w)).

Definition users_erase (key : string) : M unit := fun w =>
  (tt, mkWorld (store w) (delete key (users w)) (output w)).

(** The entries of a [std::map] in the order its iterators visit them:
    by ascending key. *)
Definition by_key (x y : string * loc) : Prop := String.le x.1 y.1.

Definition entries (m : gmap string loc) : list (string * loc) :=
  merge_sort by_key (map_to_list m).

Definition push_back {A} (v : list A) (x : A) : list A := v ++ [x].

Definition logError (message : string) : M unit :=
  write Cerr ("Error: " +:+ message).

Definition logInfo (message : string) : M unit :=
  write Cout ("Info: " +:+ message).

Definition addUser (user : loc) : M bool :=
  u ← deref user;
  if negb (validate u) then
    _ ← logError "Invalid user data";
    mret false
  else
    found ← users_find (email u);
    match found with
    | Some _ =>
        _ ← logError "User already exists";
        mret false
    | None =>
        _ ← users_assign (email u) user;
        _ ← logInfo "User added successfully";
        mret true
    end.

(** [None] is the null pointer. *)
Definition getUser (email : string) : M (option loc) :=
  users_find email.

Definition getAdultUsers : M (list loc) := fun w =>
  (fold_left
     (fun adults pair =>
        if isAdult (store w pair.2) then push_back adults pair.2 else adults)
     (entries (users w)) [],
   w).

Definition countUsers : M nat := fun w => (size (users w), w).

(** A range-based [for] over a container the body leaves alone. *)
Fixpoint for_each {A} (range : list A) (body : A -> M unit) : M unit :=
  match range with
  | [] => mret tt
  | x :: rest => _ ← body x; for_each rest body
  end.

Definition users_entries : M (list (string * loc)) := fun w =>
  (entries (users w), w).

(** The first line written starts with a line feed. *)
Definition printAllUsers : M unit :=
  _ ← write Cout (String "010" "All users:");
  range ← users_entries;
  for_each range (fun pair =>
    u ← deref pair.2;
    write Cout ("  " +:+ getSummary u)).

Definition removeUser (email : string) : M bool :=
  it ← users_find email;
  match it with
  | None => mret false
  | Some _ =>
      _ ← users_erase email;
      mret true
  end.

Definition clear : M unit := fun w =>
  (tt, mkWorld (store w) ∅ (output w)).

(** A setter called through a handle. *)
Definition update (p : loc) (f : User -> User) : M unit := fun w =>
  (tt, mkWorld (<[p := f (store w p)]> (store w)) (users w) (output w)).

(** ** class DataProcessor

    The vectors of handles these functions take are only read through; they
    are given as the list of the objects pointed to. [make_shared<User>]
    yields the new object, [nullptr] is [None]. *)

Definition trim (str : string) : result string :=
  match Str.find_first_not_of str " " with
  | None => mret EmptyString
  | Some first =>
      match Str.find_last_not_of str " " with
      | Some last => Str.substr str first (Some (last - first + 1)%nat)
      | None =>
          (* never taken ([find_last_not_of_defined]); [npos - first + 1]
             wraps around to [0] for [first = 0], and otherwise to a count
             that exceeds what is left of [str] *)
          Str.substr str first (match first with O => Some O | S _ => None end)
      end
  end.

Definition parseUserData (data : string) : result (option User) :=
  let pos1 := Str.find data "," 0 in
  let pos2 := Str.find data "," (Str.succ_pos pos1) in
  match pos1, pos2 with
  | Some pos1, Some pos2 =>
      name ← Str.substr data 0 (Some pos1);
      ageStr ← Str.substr data (pos1 + 1) (Some (pos2 - pos1 - 1)%nat);
      email ← Str.substr data (pos2 + 1) None;
      name ← trim name;
      ageStr ← trim ageStr;
      email ← trim email;
      match stoi ageStr with
      | inr age => mret (Some (mkUser name age email))
      | inl _ => mret None
      end
  | _, _ => mret None
  end.

Definition batchProcessUsers (dataList : list string) : result (list User) :=
  fold_left
    (fun acc data =>
       users ← acc;
       user ← parseUserData data;
       match user with
       | Some u => if validate u then mret (push_back users u) else mret users
       | None => mret users
       end)
    dataList (mret []).

(** [int] addition, wrapped to 32 bits. *)
Definition wrap_int (z : Z) : Z := (z + 2 ^ 31) mod 2 ^ 32 - 2 ^ 31.

(** [static_cast<double>] of an [int], and of a [size_t]. *)
Definition double_of_int (z : Z) : float :=
  if z <? 0 then PrimFloat.opp (PrimFloat.of_uint63 (Uint63.of_Z (- z)))
  else PrimFloat.of_uint63 (Uint63.of_Z z).

Definition double_of_size (n : nat) : float :=
  PrimFloat.of_uint63 (Uint63.of_Z (Z.of_nat n)).

Definition calculateAverageAge (users : list User) : float :=
  match users with
  | [] => 0%float
  | _ =>
      let total := fold_left (fun total user => wrap_int (total + age user)) users 0 in
      PrimFloat.div (double_of_int total) (double_of_size (length users))
  end.

Definition filterByAgeRange (users : list User) (minAge maxAge : Z) : list User :=
  fold_left
    (fun filtered user =>
       if (minAge <=? age user) && (age user <=? maxAge)
       then push_back filtered user else filtered)
    users [].

(** The comparator [sortByAge] hands to [std::sort]. *)
Definition age_comp (ascending : bool) (a b : User) : bool :=
  if ascending then age a <? age b else age a >? age b.

(** What the C++ standard asks of a comparator: a strict weak ordering. *)
Record strict_weak_order {A} (comp : A -> A -> bool) : Prop := {
  swo_irrefl : forall x, comp x x = false;
  swo_trans : forall x y z, comp x y = true -> comp y z = true -> comp x z = true;
  swo_incomp_trans : forall x y z,
    comp x y = false -> comp y x = false ->
    comp y z = false -> comp z y = false ->
    comp x z = false /\ comp z x = false
}.

(** What it promises of [std::sort] in return: the range is rearranged, and
    afterwards no element compares less than one that stands before it. *)
Definition sort_contract (sort : forall A, (A -> A -> bool) -> list A -> list A) : Prop :=
  forall A (comp : A -> A -> bool) (v : list A),
    strict_weak_order comp ->
    v ≡ₚ sort A comp v /\
    forall i j x y, (i < j)%nat ->
      sort A comp v !! i = Some x -> sort A comp v !! j = Some y ->
      comp y x = false.

Section SortByAge.
Variable std_sort : forall A, (A -> A -> bool) -> list A -> list A.

Definition sortByAge (users : list User) (ascending : bool) : list User :=
  std_sort User (age_comp ascending) users.
End SortByAge.

(** A sort that meets the contract: merge sort on "not greater". *)
Definition not_greater {A} (comp : A -> A -> bool) (x y : A) : Prop :=
  comp y x = false.

#[global] Instance not_greater_dec {A} (comp : A -> A -> bool) :
  RelDecision (not_greater comp) := fun x y => bool_eq_dec (comp y x) false.

Definition merge_std_sort (A : Type) (comp : A -> A -> bool) (v : list A) : list A :=
  merge_sort (not_greater comp) v.

(** ** Vocabulary of the statements *)

(** The characters of a string, for "[s] contains [c]": [c ∈ chars s]. *)
Fixpoint chars (s : string) : list ascii :=
  match s with
  | EmptyString => []
  | String a rest => a :: chars rest
  end.

(** How often [c] occurs in [s]. *)
Fixpoint occurrences (c : ascii) (s : string) : nat :=
  match s with
  | EmptyString => O
  | String a rest => ((if Ascii.eqb a c then 1 else 0) + occurrences c rest)%nat
  end.

Fixpoint spaces (n : nat) : string :=
  match n with
  | O => EmptyString
  | S n' => String " " (spaces n')
  end.

(** [t] is [f] without the spaces [f] starts and ends with. *)
Definition trimmed (f t : string) : Prop :=
  exists l r,
    f = spaces l +:+ t +:+ spaces r /\
    (forall t', t <> String " " t') /\
    (forall t', t <> t' +:+ " ").

(** [f1], [f2], [f3] are the fields of the line [s]: what stands before the
    first delimiter, between the first and the second, and after the second. *)
Definition fields (s f1 f2 f3 : string) : Prop :=
  s = f1 +:+ "," +:+ f2 +:+ "," +:+ f3 /\
  (","%char ∉ chars f1) /\ (","%char ∉ chars f2).

(** The number a sequence of decimal digits denotes, by position. *)
Fixpoint numeral (ds : list Z) : Z :=
  match ds with
  | [] => 0
  | d :: ds' => d * 10 ^ Z.of_nat (length ds') + numeral ds'
  end.

(** An integer written in base 10: an optional sign and one digit or more. *)
Inductive sign : Set :=
| NoSign
| Plus
| Minus.

Definition sign_text (sg : sign) : string :=
  match sg with
  | NoSign => ""
  | Plus => "+"
  | Minus => "-"
  end.

Definition is_digit (c : ascii) : Prop :=
  (48 <= nat_of_ascii c <= 57)%nat.

Definition digit_string (d : string) : Prop :=
  d <> EmptyString /\ Forall is_digit (chars d).

Definition digit_value (c : ascii) : Z := Z.of_nat (nat_of_ascii c) - 48.

Definition literal_value (sg : sign) (d : string) : Z :=
  let n := numeral (digit_value <$> chars d) in
  match sg with
  | Minus => - n
  | _ => n
  end.

(** White space: the space and the characters \t, \n, \v, \f, \r. *)
Definition white_space (c : ascii) : Prop :=
  nat_of_ascii c = 32%nat \/ (9 <= nat_of_ascii c <= 13)%nat.

(** The text [a] is an integer written in base 10, and [k] is the integer:
    a sign, if any, and digits, nothing before and nothing after. *)
Definition integer_literal (a : string) (k : Z) : Prop :=
  exists sg d, a = sign_text sg +:+ d /\ digit_string d /\ k = literal_value sg d.

(** The text [a] starts with the integer [k]: after white space, if any,
    come a sign, if any, and one digit or more, which denote [k]; what
    follows the digits does not start with a digit. *)
Definition reads_as (a : string) (k : Z) : Prop :=
  exists ws sg d tail,
    a = ws +:+ sign_text sg +:+ d +:+ tail /\
    Forall white_space (chars ws) /\
    digit_string d /\
    (forall c rest, tail = String c rest -> ~ is_digit c) /\
    k = literal_value sg d.

(** What [batchProcessUsers] is to keep of a line. *)
Definition kept (line : string) : option User :=
  match parseUserData line with
  | inr (Some r) => if validate r then Some r else None
  | _ => None
  end.

(** The handle [p] is held by the registry. *)
Definition stored (w : World) (p : loc) : Prop :=
  exists key, users w !! key = Some p.

(** The invariant of the registry: every entry stands under the email of
    the record it holds, and no key is listed twice. *)
Definition keyed_by_email (w : World) : Prop :=
  forall key p, users w !! key = Some p -> email (store w p) = key.

Definition registry_invariant (w : World) : Prop :=
  keyed_by_email w /\ NoDup (entries (users w)).*1.

(** What a client may do to the registry: the three operations that change
    it, and setters called on records the registry does not hold (the
    creation of a record by [make_shared] is one, on a fresh location). *)
Inductive step : World -> World -> Prop :=
| step_addUser w user : step w (addUser user w).2
| step_removeUser w email : step w (removeUser email w).2
| step_clear w : step w (clear w).2
| step_update w p f : ~ stored w p -> step w (update p f w).2.

Definition reachable (w : World) : Prop :=
  exists w0, users w0 = ∅ /\ rtc step w0 w.

(** Every record the registry holds validates. *)
Definition all_valid (w : World) : Prop :=
  forall key p, users w !! key = Some p -> validate (store w p) = true.

(** The string neither starts nor ends with a space. *)
Definition no_space_around (t : string) : Prop :=
  (forall t', t <> String " " t') /\ (forall t', t <> t' +:+ " ").

(** The sum of the ages, in the integers. *)
Definition sum_ages (users : list User) : Z :=
  foldr (fun user total => age user + total) 0 users.

(** ** Strings *)

Lemma app_cons a s t : String a s +:+ t = String a (s +:+ t).
Proof. reflexivity. Qed.

Lemma app_empty_l t : EmptyString +:+ t = t.
Proof. reflexivity. Qed.

Lemma app_empty_r s : s +:+ EmptyString = s.
Proof. induction s as [|a s IH]; [done|]. by rewrite app_cons, IH. Qed.

Lemma app_assoc_str s t u : (s +:+ t) +:+ u = s +:+ t +:+ u.
Proof.
  induction s as [|a s IH]; [done|]. by rewrite !app_cons, IH.
Qed.

Lemma length_app_str s t :
  String.length (s +:+ t) = (String.length s + String.length t)%nat.
Proof.
  induction s as [|a s IH]; [done|]. rewrite app_cons. simpl. by rewrite IH.
Qed.

Lemma chars_app s t : chars (s +:+ t) = chars s ++ chars t.
Proof.
  induction s as [|a s IH]; [done|]. rewrite app_cons. simpl. by rewrite IH.
Qed.

Lemma eqb_char_true a c : Ascii.eqb a c = true <-> a = c.
Proof. apply Ascii.eqb_eq. Qed.

Lemma eqb_char_false a c : Ascii.eqb a c = false <-> a <> c.
Proof. apply Ascii.eqb_neq. Qed.

Lemma find_0_None s c : Str.find s c 0 = None <-> c ∉ chars s.
Proof.
  induction s as [|a s IH]; simpl.
  - split; [intros _; apply not_elem_of_nil | done].
  - destruct (Ascii.eqb a c) eqn:E.
    + apply eqb_char_true in E as ->. split; [done|].
      intros []. by left.
    + apply eqb_char_false in E. rewrite not_elem_of_cons.
      destruct (Str.find s c 0); simpl; split; try done.
      * intros [_ H]. by apply IH in H.
      * intros _. split; [congruence | by apply IH].
Qed.

Lemma find_0_is_Some s c : is_Some (Str.find s c 0) <-> c ∈ chars s.
Proof.
  rewrite <- not_eq_None_Some. rewrite find_0_None.
  split; [apply dec_stable | tauto].
Qed.

(** The first occurrence of [c] in [f +:+ c :: rest], [f] free of [c]. *)
Lemma find_first f c rest :
  c ∉ chars f -> Str.find (f +:+ String c rest) c 0 = Some (String.length f).
Proof.
  induction f as [|a f IH]; simpl.
  - intros _. by rewrite Ascii.eqb_refl.
  - rewrite not_elem_of_cons. intros [Hne Hf].
    assert (Ascii.eqb a c = false) as -> by (apply eqb_char_false; congruence).
    by rewrite IH.
Qed.

(** Searching from a position past the string [f] in front. *)
Lemma find_skip f s c k :
  Str.find (f +:+ s) c (String.length f + k) =
  (fun i => (String.length f + i)%nat) <$> Str.find s c k.
Proof.
  induction f as [|a f IH]; simpl.
  - rewrite app_empty_l. by destruct (Str.find s c k).
  - rewrite IH. by destruct (Str.find s c k).
Qed.

Lemma prefix_app s t : Str.prefix (s +:+ t) (String.length s) = s.
Proof.
  induction s as [|a s IH]; simpl; [rewrite ?app_empty_l; by destruct t | by rewrite IH].
Qed.

Lemma suffix_app s t : Str.suffix (s +:+ t) (String.length s) = t.
Proof.
  induction s as [|a s IH]; simpl; [rewrite ?app_empty_l; by destruct t | done].
Qed.

Lemma substr_in_range s pos count :
  (pos <= String.length s)%nat ->
  Str.substr s pos count =
  inr (match count with
       | Some n => Str.prefix (Str.suffix s pos) n
       | None => Str.suffix s pos
       end).
Proof.
  intros H. unfold Str.substr.
  destruct (Nat.ltb_spec (String.length s) pos); [lia|]. by destruct count.
Qed.

(** ** C1 *)

(** C1. A record validates exactly when its name is not empty, its age lies
    between 18 and 150, bounds included, and its email contains the
    character '@'. Each of the three checks depends on its own field only,
    and [validate] is their conjunction. *)
Theorem validate_iff (r : User) :
  (validateName r = true <-> name r <> EmptyString) /\
  (validateAge r = true <-> 18 <= age r <= 150) /\
  (validateEmail r = true <-> "@"%char ∈ chars (email r)) /\
  validate r = validateName r && validateAge r && validateEmail r /\
  (validate r = true <->
   name r <> EmptyString /\ 18 <= age r <= 150 /\ "@"%char ∈ chars (email r)).
Proof.
  assert (Hn : validateName r = true <-> name r <> EmptyString).
  { unfold validateName. rewrite negb_true_iff. apply String.eqb_neq. }
  assert (Ha : validateAge r = true <-> 18 <= age r <= 150).
  { unfold validateAge. rewrite andb_true_iff, !Z.leb_le. tauto. }
  assert (He : validateEmail r = true <-> "@"%char ∈ chars (email r)).
  { unfold validateEmail. rewrite <- find_0_is_Some.
    destruct (Str.find (email r) "@" 0); split;
      first [done | by eexists | by intros [? ?]]. }
  split; [done|]. split; [done|]. split; [done|]. split; [done|].
  unfold validate. rewrite !andb_true_iff. tauto.
Qed.

(** ** [trim] *)

Lemma length_spaces n : String.length (spaces n) = n.
Proof. induction n as [|n IH]; simpl; [done | by rewrite IH]. Qed.

Lemma find_first_not_of_spaces l x :
  Str.find_first_not_of (spaces l +:+ x) " " =
  (fun i => (l + i)%nat) <$> Str.find_first_not_of x " ".
Proof.
  induction l as [|l IH]; simpl.
  - rewrite app_empty_l. by destruct (Str.find_first_not_of x " ").
  - rewrite IH. by destruct (Str.find_first_not_of x " ").
Qed.

Lemma find_first_not_of_only_spaces n :
  Str.find_first_not_of (spaces n) " " = None.
Proof. induction n as [|n IH]; simpl; [done | by rewrite IH]. Qed.

Lemma find_last_not_of_app x y c :
  Str.find_last_not_of (x +:+ y) c =
  match Str.find_last_not_of y c with
  | Some i => Some (String.length x + i)%nat
  | None => Str.find_last_not_of x c
  end.
Proof.
  induction x as [|a x IH]; simpl.
  - rewrite app_empty_l. by destruct (Str.find_last_not_of y c).
  - rewrite IH. by destruct (Str.find_last_not_of y c).
Qed.

Lemma find_last_not_of_only_spaces n :
  Str.find_last_not_of (spaces n) " " = None.
Proof. induction n as [|n IH]; simpl; [done | by rewrite IH]. Qed.

Lemma string_snoc_inv t :
  t <> EmptyString -> exists t0 b, t = t0 +:+ String b EmptyString.
Proof.
  induction t as [|a t IH]; [done|]. intros _.
  destruct t as [|a' t'].
  - by exists EmptyString, a.
  - destruct IH as (t0 & b & E); [done|].
    exists (String a t0), b. simpl. by rewrite E.
Qed.

(** A string found first cannot be missed from the end: the branch of [trim]
    in which [find_last_not_of] answers [npos] is never taken. *)
Lemma find_last_not_of_defined s c i :
  Str.find_first_not_of s c = Some i -> is_Some (Str.find_last_not_of s c).
Proof.
  revert i. induction s as [|a s IH]; simpl; [done|]. intros i.
  destruct (Ascii.eqb a c).
  - destruct (Str.find_first_not_of s c) as [j|] eqn:E; [|done].
    intros _. destruct (IH j eq_refl) as [k ->]. by eexists.
  - intros _. destruct (Str.find_last_not_of s c); by eexists.
Qed.

Lemma trim_of_trimmed f t : trimmed f t -> trim f = inr t.
Proof.
  intros (l & r & -> & Hhead & Hlast). unfold trim.
  rewrite find_first_not_of_spaces.
  destruct t as [|a t1].
  { rewrite app_empty_l. by rewrite find_first_not_of_only_spaces. }
  assert (Ha : Ascii.eqb a " " = false).
  { apply eqb_char_false. intros ->. by eapply Hhead. }
  destruct (string_snoc_inv (String a t1)) as (t0 & b & Et); [done|].
  assert (Hb : Ascii.eqb b " " = false).
  { apply eqb_char_false. intros ->. by eapply Hlast. }
  assert (Hl : Str.find_last_not_of (String a t1) " " = Some (String.length t0)).
  { rewrite Et, find_last_not_of_app. simpl. rewrite Hb. f_equal. lia. }
  assert (Hlen : String.length (String a t1) = S (String.length t0)).
  { rewrite Et, length_app_str. simpl. lia. }
  replace (Str.find_first_not_of (String a t1 +:+ spaces r) " ") with (Some O)
    by (simpl; by rewrite Ha).
  simpl fmap.
  rewrite find_last_not_of_app, (find_last_not_of_app _ (spaces r)).
  rewrite find_last_not_of_only_spaces, Hl, length_spaces.
  rewrite substr_in_range by (rewrite !length_app_str, length_spaces; lia).
  replace (l + 0)%nat with (String.length (spaces l)) at 1
    by (rewrite length_spaces; lia).
  rewrite suffix_app.
  replace (l + String.length t0 - (l + 0) + 1)%nat
    with (String.length (String a t1)) by lia.
  by rewrite prefix_app.
Qed.

Lemma trimmed_exists f : exists t, trimmed f t.
Proof.
  induction f as [|a f (t & l & r & E & Hhead & Hlast)].
  { exists EmptyString, O, O. split; [done|]. split; [done|].
    intros [|??]; done. }
  destruct (decide (a = " "%char)) as [->|Hne].
  { exists t, (S l), r. simpl. by rewrite E. }
  destruct t as [|b t].
  - exists (String a EmptyString), O, (l + r)%nat. split; [|split].
    + rewrite E, !app_empty_l, app_cons, app_empty_l. f_equal. clear.
      induction l as [|l IH]; simpl; [by rewrite app_empty_l | by rewrite app_cons, IH].
    + intros t' [= ? _]. done.
    + intros [|c [|??]] E'; simpl in E'; inversion E'; done.
  - exists (String a (spaces l +:+ String b t)), O, r. split; [|split].
    + rewrite E.
      change (spaces 0 +:+ String a (spaces l +:+ String b t) +:+ spaces r)
        with (String a ((spaces l +:+ String b t) +:+ spaces r)).
      by rewrite app_assoc_str.
    + intros t' [= ? _]. done.
    + intros t' E'. destruct (string_snoc_inv (String b t)) as (t0 & c & Et); [done|].
      apply (Hlast t0). rewrite Et in E' |- *.
      assert (c = " "%char) as ->; [|done].
      assert (H : chars (String a (spaces l +:+ t0 +:+ String c EmptyString)) =
                  chars (t' +:+ " ")) by by rewrite E'.
      simpl in H. rewrite !chars_app in H. simpl in H.
      rewrite app_comm_cons, app_assoc in H.
      by apply app_inj_tail in H as [_ ?].
Qed.

(** [trim] throws nothing, and returns the string without the spaces around it. *)
Lemma trim_spec f t : trim f = inr t <-> trimmed f t.
Proof.
  split; [|apply trim_of_trimmed].
  destruct (trimmed_exists f) as (t' & H). intros E.
  rewrite (trim_of_trimmed _ _ H) in E. by injection E as <-.
Qed.

Lemma trimmed_unique f t t' : trimmed f t -> trimmed f t' -> t = t'.
Proof.
  intros H%trim_of_trimmed H'%trim_of_trimmed. congruence.
Qed.

(** ** [parseUserData] *)

Lemma suffix_skip s t k :
  Str.suffix (s +:+ t) (String.length s + k) = Str.suffix t k.
Proof.
  induction s as [|a s IH]; simpl; [by rewrite app_empty_l | done].
Qed.

Lemma occurrences_app c s t :
  occurrences c (s +:+ t) = (occurrences c s + occurrences c t)%nat.
Proof.
  induction s as [|a s IH]; simpl; [by rewrite app_empty_l|].
  rewrite IH. lia.
Qed.

Lemma occurrences_0 c s : occurrences c s = O <-> c ∉ chars s.
Proof.
  induction s as [|a s IH]; simpl.
  - split; [intros _; apply not_elem_of_nil | done].
  - rewrite not_elem_of_cons. destruct (Ascii.eqb a c) eqn:E.
    + apply eqb_char_true in E. split; [lia | intros [? _]; congruence].
    + apply eqb_char_false in E. rewrite <- IH. split; [intros; split; [congruence | lia] | lia].
Qed.

(** Where [find] finds [c], the string splits there. *)
Lemma find_0_Some s c p :
  Str.find s c 0 = Some p ->
  exists f rest, s = f +:+ String c rest /\ (c ∉ chars f) /\ p = String.length f.
Proof.
  revert p. induction s as [|a s IH]; simpl; [done|]. intros p.
  destruct (Ascii.eqb a c) eqn:E.
  - apply eqb_char_true in E as ->. intros [= <-].
    exists EmptyString, s. split; [done|]. split; [apply not_elem_of_nil | done].
  - apply eqb_char_false in E.
    destruct (Str.find s c 0) as [q|] eqn:F; [|done]. intros [= <-].
    destruct (IH q eq_refl) as (f & rest & -> & Hf & ->).
    exists (String a f), rest. split; [done|]. split; [|done].
    simpl. rewrite not_elem_of_cons. split; [congruence | done].
Qed.

Lemma fields_positions s f1 f2 f3 :
  fields s f1 f2 f3 ->
  Str.find s "," 0 = Some (String.length f1) /\
  Str.find s "," (S (String.length f1)) =
    Some (String.length f1 + S (String.length f2))%nat.
Proof.
  intros (-> & H1 & H2). split.
  - by apply find_first.
  - replace (S (String.length f1)) with (String.length f1 + 1)%nat by lia.
    rewrite find_skip.
    change ("," +:+ f2 +:+ "," +:+ f3) with (String "," (f2 +:+ String "," f3)).
    simpl. by rewrite (find_first f2 "," f3 H2).
Qed.

(** On a line with two delimiters the three [substr] calls cut out the
    fields, and none throws. *)
Lemma parseUserData_fields s f1 f2 f3 :
  fields s f1 f2 f3 ->
  parseUserData s =
  (n ← trim f1; a ← trim f2; e ← trim f3;
   match stoi a with
   | inr k => mret (Some (mkUser n k e))
   | inl _ => mret None
   end).
Proof.
  intros H. destruct (fields_positions _ _ _ _ H) as [P1 P2].
  destruct H as (E & _ & _). unfold parseUserData.
  rewrite P1. simpl Str.succ_pos. rewrite P2.
  assert (L : String.length s =
              (String.length f1 + S (String.length f2 + S (String.length f3)))%nat).
  { rewrite E, !length_app_str. simpl. lia. }
  rewrite !substr_in_range by lia.
  assert (S1 : Str.prefix (Str.suffix s 0) (String.length f1) = f1).
  { replace (Str.suffix s 0) with s by by destruct s.
    rewrite E. apply prefix_app. }
  assert (S2 : Str.prefix (Str.suffix s (String.length f1 + 1))
                 (String.length f1 + S (String.length f2) - String.length f1 - 1) = f2).
  { replace (String.length f1 + S (String.length f2) - String.length f1 - 1)%nat
      with (String.length f2) by lia.
    rewrite E, suffix_skip.
    change (Str.suffix ("," +:+ f2 +:+ "," +:+ f3) 1) with (Str.suffix (f2 +:+ "," +:+ f3) 0).
    replace (Str.suffix (f2 +:+ "," +:+ f3) 0) with (f2 +:+ "," +:+ f3)
      by by destruct (f2 +:+ "," +:+ f3).
    apply prefix_app. }
  assert (S3 : Str.suffix s (String.length f1 + S (String.length f2) + 1) = f3).
  { rewrite E.
    replace (String.length f1 + S (String.length f2) + 1)%nat
      with (String.length f1 + S (String.length f2 + 1))%nat by lia.
    rewrite suffix_skip.
    change (Str.suffix ("," +:+ f2 +:+ "," +:+ f3) (S (String.length f2 + 1)))
      with (Str.suffix (f2 +:+ "," +:+ f3) (String.length f2 + 1)).
    rewrite suffix_skip. by destruct f3. }
  rewrite S1, S2, S3. done.
Qed.

Lemma parseUserData_few s :
  (occurrences "," s < 2)%nat -> parseUserData s = inr None.
Proof.
  intros H. unfold parseUserData.
  destruct (Str.find s "," 0) as [p|] eqn:F; [|done].
  destruct (find_0_Some _ _ _ F) as (f & rest & -> & Hf & ->).
  rewrite occurrences_app in H. simpl in H.
  assert (Hr : ","%char ∉ chars rest) by (apply occurrences_0; lia).
  simpl Str.succ_pos.
  replace (S (String.length f)) with (String.length f + 1)%nat by lia.
  rewrite find_skip. simpl.
  apply find_0_None in Hr. by rewrite Hr.
Qed.

Lemma fields_exist s :
  (2 <= occurrences "," s)%nat -> exists f1 f2 f3, fields s f1 f2 f3.
Proof.
  intros H.
  destruct (Str.find s "," 0) as [p|] eqn:F.
  2: { apply find_0_None, occurrences_0 in F. lia. }
  destruct (find_0_Some _ _ _ F) as (f1 & rest & -> & H1 & _).
  rewrite occurrences_app in H. simpl in H.
  apply occurrences_0 in H1. rewrite H1 in H.
  destruct (Str.find rest "," 0) as [q|] eqn:G.
  2: { apply find_0_None, occurrences_0 in G. lia. }
  destruct (find_0_Some _ _ _ G) as (f2 & f3 & -> & H2 & _).
  exists f1, f2, f3. split; [done|]. split; [by apply occurrences_0 | done].
Qed.

Lemma fields_occurrences s f1 f2 f3 :
  fields s f1 f2 f3 -> (2 <= occurrences "," s)%nat.
Proof.
  intros (-> & _ & _).
  change (f1 +:+ "," +:+ f2 +:+ "," +:+ f3)
    with (f1 +:+ String "," (f2 +:+ String "," f3)).
  rewrite occurrences_app. simpl. rewrite occurrences_app. simpl. lia.
Qed.

(** The outcome of [parseUserData] on a line with its fields trimmed. *)
Lemma parseUserData_trimmed s f1 f2 f3 n a e :
  fields s f1 f2 f3 -> trimmed f1 n -> trimmed f2 a -> trimmed f3 e ->
  parseUserData s =
  inr (match stoi a with
       | inr k => Some (mkUser n k e)
       | inl _ => None
       end).
Proof.
  intros H H1 H2 H3. rewrite (parseUserData_fields _ _ _ _ H).
  rewrite (trim_of_trimmed _ _ H1), (trim_of_trimmed _ _ H2), (trim_of_trimmed _ _ H3).
  simpl. by destruct (stoi a).
Qed.

(** ** [stoi] *)

Lemma is_digit_cases a :
  is_digit a ->
  a ∈ ["0"; "1"; "2"; "3"; "4"; "5"; "6"; "7"; "8"; "9"]%char.
Proof.
  unfold is_digit.
  destruct a as [[] [] [] [] [] [] [] []]; vm_compute; intros [? ?];
    first [lia | repeat first [by left | right]].
Qed.

Lemma digit_of_digit a : is_digit a -> digit_of a = Some (digit_value a).
Proof.
  intros H%is_digit_cases. repeat (apply elem_of_cons in H as [->|H]; [done|]).
  by apply elem_of_nil in H.
Qed.

Lemma digit_of_None a : digit_of a = None <-> ~ is_digit a.
Proof.
  unfold digit_of, is_digit.
  destruct (Nat.leb_spec 48 (nat_of_ascii a)), (Nat.leb_spec (nat_of_ascii a) 57);
    simpl; split; first [done | lia].
Qed.

Lemma isspace_digit a : is_digit a -> isspace a = false.
Proof.
  intros H%is_digit_cases. repeat (apply elem_of_cons in H as [->|H]; [done|]).
  by apply elem_of_nil in H.
Qed.

Lemma split_sign_digit a s :
  is_digit a -> split_sign (String a s) = (false, String a s).
Proof.
  intros H%is_digit_cases. repeat (apply elem_of_cons in H as [->|H]; [done|]).
  by apply elem_of_nil in H.
Qed.

Lemma leading_digits_app d tail :
  Forall is_digit (chars d) ->
  leading_digits tail = [] ->
  leading_digits (d +:+ tail) = digit_value <$> chars d.
Proof.
  intros Hd Ht. induction d as [|a d IH]; simpl.
  - by rewrite app_empty_l.
  - apply Forall_cons in Hd as [Ha Hd]. rewrite (digit_of_digit a Ha).
    by rewrite (IH Hd).
Qed.

Lemma fold_decimal ds acc :
  fold_left (fun acc d => 10 * acc + d) ds acc =
  acc * 10 ^ Z.of_nat (length ds) + numeral ds.
Proof.
  revert acc. induction ds as [|d ds IH]; intros acc; simpl fold_left.
  - simpl. lia.
  - rewrite IH. cbn [numeral length]. rewrite Nat2Z.inj_succ, Z.pow_succ_r by lia.
    ring.
Qed.

Lemma decimal_numeral ds : decimal ds = numeral ds.
Proof. unfold decimal. rewrite fold_decimal. lia. Qed.

(** [stoi] on a text that starts with a literal: it reads the literal and
    ignores the rest, or throws [out_of_range]. *)
Lemma stoi_literal sg d tail :
  digit_string d ->
  leading_digits tail = [] ->
  stoi (sign_text sg +:+ d +:+ tail) =
  if (INT_MIN <=? literal_value sg d) && (literal_value sg d <=? INT_MAX)
  then inr (literal_value sg d) else inl out_of_range.
Proof.
  intros [Hne Hd] Ht. unfold stoi.
  destruct d as [|a d]; [done|].
  pose proof Hd as Hd'. apply Forall_cons in Hd' as [Ha _].
  assert (E : split_sign (skip_space (sign_text sg +:+ String a d +:+ tail)) =
              (match sg with Minus => true | _ => false end, String a d +:+ tail)).
  { destruct sg; simpl sign_text; rewrite ?app_empty_l.
    - rewrite app_cons. simpl skip_space. rewrite (isspace_digit a Ha).
      by apply split_sign_digit.
    - done.
    - done. }
  rewrite E, (leading_digits_app _ _ Hd Ht).
  unfold literal_value. simpl chars. rewrite fmap_cons. cbv beta iota zeta.
  rewrite !decimal_numeral.
  by destruct sg;
    match goal with |- context [?b && ?c] => destruct (b && c) end.
Qed.

Lemma isspace_white_space c : isspace c = true <-> white_space c.
Proof.
  unfold isspace, white_space.
  rewrite orb_true_iff, andb_true_iff, Nat.eqb_eq, !Nat.leb_le. tauto.
Qed.

Lemma skip_space_app ws x :
  Forall white_space (chars ws) -> skip_space (ws +:+ x) = skip_space x.
Proof.
  induction ws as [|c ws IH]; [by rewrite app_empty_l|].
  simpl chars. intros [Hc Hws]%Forall_cons. apply isspace_white_space in Hc.
  rewrite app_cons. simpl. rewrite Hc. by apply IH.
Qed.

Lemma skip_space_split s :
  exists ws, s = ws +:+ skip_space s /\ Forall white_space (chars ws).
Proof.
  induction s as [|c s (ws & E & Hws)].
  - by exists EmptyString.
  - simpl. destruct (isspace c) eqn:Hc.
    + exists (String c ws). rewrite app_cons, <- E. split; [done|].
      simpl. apply Forall_cons. split; [by apply isspace_white_space | done].
    + by exists EmptyString.
Qed.

Lemma split_sign_other c s :
  c <> "-"%char -> c <> "+"%char -> split_sign (String c s) = (false, String c s).
Proof.
  intros H1 H2.
  destruct c as [[] [] [] [] [] [] [] []]; first [reflexivity | congruence].
Qed.

Lemma leading_digits_split body :
  exists d tail,
    body = d +:+ tail /\ Forall is_digit (chars d) /\
    leading_digits body = digit_value <$> chars d /\
    (forall c rest, tail = String c rest -> ~ is_digit c).
Proof.
  induction body as [|c body (d & tail & E & Hd & Hl & Ht)].
  - exists EmptyString, EmptyString. by repeat split.
  - destruct (decide (is_digit c)) as [Hc|Hc].
    + exists (String c d), tail. rewrite app_cons, <- E. simpl.
      rewrite (digit_of_digit c Hc), Hl. split; [done|].
      split; [by apply Forall_cons|]. by split.
    + exists EmptyString, (String c body). rewrite app_empty_l. simpl.
      apply digit_of_None in Hc as Hc'. rewrite Hc'.
      split; [done|]. split; [done|]. split; [done|]. by intros ? ? [= <- _].
Qed.

Lemma leading_digits_tail tail :
  (forall c rest, tail = String c rest -> ~ is_digit c) -> leading_digits tail = [].
Proof.
  destruct tail as [|c rest]; [done|]. intros H. simpl.
  by rewrite (proj2 (digit_of_None c) (H c rest eq_refl)).
Qed.

(** What [stoi] scans of a text that starts with an integer. *)
Lemma reads_as_scan a k :
  reads_as a k <->
  leading_digits (split_sign (skip_space a)).2 <> [] /\
  k = if (split_sign (skip_space a)).1
      then - decimal (leading_digits (split_sign (skip_space a)).2)
      else decimal (leading_digits (split_sign (skip_space a)).2).
Proof.
  split.
  - intros (ws & sg & d & tail & -> & Hws & [Hne Hd] & Ht & ->).
    destruct d as [|c d]; [done|].
    pose proof Hd as Hd'. apply Forall_cons in Hd' as [Hc _].
    rewrite (skip_space_app _ _ Hws).
    assert (E : split_sign (skip_space (sign_text sg +:+ String c d +:+ tail)) =
                (match sg with Minus => true | _ => false end, String c d +:+ tail)).
    { destruct sg; simpl sign_text; rewrite ?app_empty_l.
      - rewrite app_cons. simpl skip_space. rewrite (isspace_digit c Hc).
        by apply split_sign_digit.
      - done.
      - done. }
    rewrite E. simpl fst. simpl snd.
    rewrite (leading_digits_app _ _ Hd (leading_digits_tail _ Ht)).
    split; [done|]. unfold literal_value. rewrite decimal_numeral. by destruct sg.
  - intros [Hne ->].
    destruct (skip_space_split a) as (ws & Ea & Hws).
    assert (Hsign : exists sg,
      skip_space a = sign_text sg +:+ (split_sign (skip_space a)).2 /\
      (split_sign (skip_space a)).1 = match sg with Minus => true | _ => false end).
    { destruct (skip_space a) as [|c s]; [by exists NoSign|].
      destruct (decide (c = "-"%char)) as [->|H1]; [by exists Minus|].
      destruct (decide (c = "+"%char)) as [->|H2]; [by exists Plus|].
      exists NoSign. by rewrite split_sign_other. }
    destruct Hsign as (sg & Es & En).
    destruct (leading_digits_split (split_sign (skip_space a)).2)
      as (d & tail & Eb & Hd & Hl & Ht).
    exists ws, sg, d, tail. rewrite Hl in Hne |- *.
    split; [by rewrite <- Eb, <- Es|]. split; [done|]. split; [|split; [done|]].
    + split; [|done]. intros ->. by apply Hne.
    + rewrite En. unfold literal_value. rewrite decimal_numeral. by destruct sg.
Qed.

(** What [stoi] returns and what it throws, by what its argument starts
    with. *)
Lemma stoi_reads a :
  (forall k, stoi a = inr k <-> reads_as a k /\ INT_MIN <= k <= INT_MAX) /\
  (stoi a = inl invalid_argument <-> ~ exists k, reads_as a k) /\
  (stoi a = inl out_of_range <->
   exists k, reads_as a k /\ ~ INT_MIN <= k <= INT_MAX).
Proof.
  assert (R := fun k => reads_as_scan a k).
  unfold stoi. destruct (split_sign (skip_space a)) as [neg body].
  simpl in R. destruct (leading_digits body) as [|d ds] eqn:L.
  - split; [|split].
    + intros k. split; [done|]. intros [[? _]%R _]. done.
    + split; [|done]. intros _ [k [? _]%R]. done.
    + split; [done|]. intros (k & [? _]%R & _). done.
  - set (v := if neg then - decimal (d :: ds) else decimal (d :: ds)) in *.
    assert (Hv : reads_as a v) by (by apply R).
    assert (Hu : forall k, reads_as a k -> k = v) by (by intros k [_ ?]%R).
    destruct (decide (INT_MIN <= v <= INT_MAX)) as [Hin|Hout].
    + assert ((INT_MIN <=? v) && (v <=? INT_MAX) = true) as ->
        by (apply andb_true_iff; split; apply Z.leb_le; lia).
      split; [|split].
      * intros k. split; [by intros [= <-] | by intros [->%Hu _]].
      * split; [done|]. intros H'. exfalso. apply H'. by exists v.
      * split; [done|]. by intros (k & ->%Hu & ?).
    + assert ((INT_MIN <=? v) && (v <=? INT_MAX) = false) as ->.
      { apply andb_false_iff.
        destruct (Z.leb_spec INT_MIN v), (Z.leb_spec v INT_MAX); auto. lia. }
      split; [|split].
      * intros k. split; [done|]. by intros [->%Hu ?].
      * split; [done|]. intros H'. exfalso. apply H'. by exists v.
      * split; [|done]. intros _. by exists v.
Qed.

(** No exception leaves [parseUserData]: those of [stoi] are caught, and the
    calls of [substr] stay within the line. *)
Lemma parseUserData_returns s : exists r, parseUserData s = inr r.
Proof.
  destruct (decide (occurrences "," s < 2)%nat) as [H|H].
  - eexists. by apply parseUserData_few.
  - destruct (fields_exist s) as (f1 & f2 & f3 & F); [lia|].
    destruct (trimmed_exists f1) as [n T1], (trimmed_exists f2) as [a T2],
      (trimmed_exists f3) as [e T3].
    eexists. by eapply parseUserData_trimmed.
Qed.

Lemma fields_unique s f1 f2 f3 g1 g2 g3 :
  fields s f1 f2 f3 -> fields s g1 g2 g3 -> f1 = g1 /\ f2 = g2 /\ f3 = g3.
Proof.
  intros F G.
  destruct (fields_positions _ _ _ _ F) as [P1 P2],
    (fields_positions _ _ _ _ G) as [Q1 Q2].
  rewrite P1 in Q1. injection Q1 as L1.
  rewrite <- L1, P2 in Q2. injection Q2 as L2.
  destruct F as (E & _ & _), G as (E' & _ & _).
  assert (f1 = g1) as <-.
  { rewrite <- (prefix_app f1 ("," +:+ f2 +:+ "," +:+ f3)), <- E, E', L1.
    apply prefix_app. }
  rewrite E in E'. apply (inj (String.app f1)) in E'.
  injection E' as E'. rewrite !app_empty_l in E'.
  assert (f2 = g2) as <-.
  { rewrite <- (prefix_app f2 ("," +:+ f3)), E'.
    replace (String.length f2) with (String.length g2) by lia.
    apply prefix_app. }
  apply (inj (String.app f2)) in E'. injection E' as E'.
  rewrite !app_empty_l in E'. by subst.
Qed.

(** ** C3 *)

(** C3, as stated, fails in both directions when "can be interpreted as an
    integer" is read as "is an integer written in base 10": the age field
    "17x" is none, yet the line is parsed, with the age 17; the age field
    "2147483648" is one, and its line has two commas, yet it is refused. *)
Lemma parseUserData_reads_counterexample :
  ((~ exists k, integer_literal "17x" k) /\
   parseUserData "Bob,17x,bob@x.com" = inr (Some (mkUser "Bob" 17 "bob@x.com"))) /\
  (integer_literal "2147483648" 2147483648 /\
   parseUserData "Bob,2147483648,bob@x.com" = inr None).
Proof.
  split; split.
  - intros (k & sg & d & E & [_ Hd] & _).
    assert (Hx : "x"%char ∈ chars d).
    { destruct sg; simpl in E; rewrite ?app_empty_l in E.
      - rewrite <- E. compute_done.
      - destruct d; discriminate E.
      - destruct d; discriminate E. }
    rewrite Forall_forall in Hd. apply Hd in Hx.
    unfold is_digit in Hx. vm_compute in Hx. lia.
  - reflexivity.
  - exists NoSign, "2147483648". split; [reflexivity|]. split; [|reflexivity].
    split; [done | repeat constructor; unfold is_digit; vm_compute; lia].
  - reflexivity.
Qed.

(** C3, amended. [parseUserData] returns the null pointer exactly when the
    line has fewer than two commas, or its age field, trimmed, does not
    start (after white space, if any, and a sign, if any) with a digit, or
    starts so with an integer that is no [int]. In every other case it
    returns the record made of the first and the third field of the line
    (split at the first two commas), each trimmed of the spaces around it,
    and of the integer the age field starts with, whatever follows its
    digits and whether the record validates or not: the line
    "Bob, 17 , bob@x.com" gives {Bob, 17, bob@x.com}, which does not
    validate. No exception leaves the function. *)
Theorem parseUserData_reads :
  (forall s,
     (parseUserData s = inr None <->
        (occurrences "," s < 2)%nat \/
        exists f1 f2 f3 a,
          fields s f1 f2 f3 /\ trimmed f2 a /\
          ((~ exists k, reads_as a k) \/
           (exists k, reads_as a k /\ ~ INT_MIN <= k <= INT_MAX))) /\
     (parseUserData s <> inr None ->
        exists f1 f2 f3 n a e k,
          fields s f1 f2 f3 /\ trimmed f1 n /\ trimmed f2 a /\ trimmed f3 e /\
          reads_as a k /\ INT_MIN <= k <= INT_MAX /\
          parseUserData s = inr (Some (mkUser n k e))) /\
     (forall f1 f2 f3 n a e k,
        fields s f1 f2 f3 -> trimmed f1 n -> trimmed f2 a -> trimmed f3 e ->
        reads_as a k -> INT_MIN <= k <= INT_MAX ->
        parseUserData s = inr (Some (mkUser n k e)))) /\
  parseUserData "Bob, 17 , bob@x.com" = inr (Some (mkUser "Bob" 17 "bob@x.com")) /\
  validate (mkUser "Bob" 17 "bob@x.com") = false.
Proof.
  split; [|split; reflexivity].
  intros s.
  assert (Hsucc : forall f1 f2 f3 n a e k,
    fields s f1 f2 f3 -> trimmed f1 n -> trimmed f2 a -> trimmed f3 e ->
    reads_as a k -> INT_MIN <= k <= INT_MAX ->
    parseUserData s = inr (Some (mkUser n k e))).
  { intros * F T1 T2 T3 Hr Hk.
    rewrite (parseUserData_trimmed _ _ _ _ _ _ _ F T1 T2 T3).
    by rewrite (proj2 (proj1 (stoi_reads a) k) (conj Hr Hk)). }
  split; [|split; [|exact Hsucc]].
  - split.
    + intros Hnone.
      destruct (decide (occurrences "," s < 2)%nat) as [H|H]; [by left | right].
      destruct (fields_exist s) as (f1 & f2 & f3 & F); [lia|].
      destruct (trimmed_exists f1) as [n T1], (trimmed_exists f2) as [a T2],
        (trimmed_exists f3) as [e T3].
      rewrite (parseUserData_trimmed _ _ _ _ _ _ _ F T1 T2 T3) in Hnone.
      exists f1, f2, f3, a. split; [done|]. split; [done|].
      destruct (stoi a) as [[]|k] eqn:St; [| |done].
      * left. by apply (stoi_reads a).
      * right. by apply (stoi_reads a).
    + intros [H | (f1 & f2 & f3 & a & F & T2 & Hbad)].
      * by apply parseUserData_few.
      * destruct (trimmed_exists f1) as [n T1], (trimmed_exists f3) as [e T3].
        rewrite (parseUserData_trimmed _ _ _ _ _ _ _ F T1 T2 T3).
        destruct Hbad as [Hbad|Hbad].
        -- by rewrite (proj2 (proj1 (proj2 (stoi_reads a))) Hbad).
        -- by rewrite (proj2 (proj2 (proj2 (stoi_reads a))) Hbad).
  - intros Hsome.
    destruct (decide (occurrences "," s < 2)%nat) as [H|H].
    { by apply parseUserData_few in H. }
    destruct (fields_exist s) as (f1 & f2 & f3 & F); [lia|].
    destruct (trimmed_exists f1) as [n T1], (trimmed_exists f2) as [a T2],
      (trimmed_exists f3) as [e T3].
    pose proof (parseUserData_trimmed _ _ _ _ _ _ _ F T1 T2 T3) as P.
    destruct (stoi a) as [x|k] eqn:St; [done|].
    apply (stoi_reads a) in St as [Hr Hk].
    by exists f1, f2, f3, n, a, e, k.
Qed.

(** The third part of the amended C3 at the line "Bob, 17 , bob@x.com". *)
Lemma parseUserData_reads_witness :
  parseUserData "Bob, 17 , bob@x.com" = inr (Some (mkUser "Bob" 17 "bob@x.com")).
Proof.
  apply (proj2 (proj2 (proj1 parseUserData_reads "Bob, 17 , bob@x.com"))
           "Bob" " 17 " " bob@x.com" "Bob" "17" "bob@x.com" 17).
  - split; [reflexivity | split; compute_done].
  - apply trim_spec. reflexivity.
  - apply trim_spec. reflexivity.
  - apply trim_spec. reflexivity.
  - exists EmptyString, NoSign, "17", EmptyString.
    split; [reflexivity|]. split; [constructor|].
    split; [split; [done | repeat constructor; unfold is_digit; vm_compute; lia]|].
    split; [done | reflexivity].
  - vm_compute. split; discriminate.
Defined.

(** ** C4 *)

(** C4, as stated, fails: a comma inside the email, or inside the name, does
    not make [parseUserData] return the null pointer. The line made of the
    name "Bob", the age "20" and the email "a@b,c.com" is parsed, comma and
    all; the line made of the name "1,2", the age "3" and the email "e@x" is
    parsed too, as the name "1", the age 2 and the email "3,e@x". *)
Lemma parseUserData_delimiter_counterexample :
  (","%char ∈ chars "a@b,c.com" /\
   parseUserData ("Bob" +:+ "," +:+ "20" +:+ "," +:+ "a@b,c.com") =
     inr (Some (mkUser "Bob" 20 "a@b,c.com"))) /\
  (","%char ∈ chars "1,2" /\
   parseUserData ("1,2" +:+ "," +:+ "3" +:+ "," +:+ "e@x") =
     inr (Some (mkUser "1" 2 "3,e@x"))).
Proof.
  split; (split; [compute_done | reflexivity]).
Qed.

(** C4, amended. There is no escaping: the line is cut at its first two
    commas, wherever they stand. A comma in the email (in what follows the
    second comma of the line) stays in the email, and the parse succeeds
    whenever the age is read. A comma in the name cuts the name there: what
    stands between it and the next comma is taken as the age, what follows
    as the email, and the parse fails only if [stoi] cannot read that age. *)
Theorem parseUserData_delimiter :
  (forall n a e n' a' e' k,
     ","%char ∉ chars n -> ","%char ∉ chars a -> ","%char ∈ chars e ->
     trimmed n n' -> trimmed a a' -> trimmed e e' -> stoi a' = inr k ->
     parseUserData (n +:+ "," +:+ a +:+ "," +:+ e) =
       inr (Some (mkUser n' k e'))) /\
  (forall n1 n2 a e n1' n2' r',
     ","%char ∉ chars n1 -> ","%char ∉ chars n2 ->
     trimmed n1 n1' -> trimmed n2 n2' -> trimmed (a +:+ "," +:+ e) r' ->
     parseUserData ((n1 +:+ "," +:+ n2) +:+ "," +:+ a +:+ "," +:+ e) =
       inr (match stoi n2' with
            | inr k => Some (mkUser n1' k r')
            | inl _ => None
            end)).
Proof.
  split.
  - intros * Hn Ha _ T1 T2 T3 St.
    rewrite (parseUserData_trimmed _ n a e n' a' e'); [by rewrite St | | done..].
    by split.
  - intros * H1 H2 T1 T2 T3.
    rewrite !app_assoc_str.
    apply (parseUserData_trimmed _ n1 n2 (a +:+ "," +:+ e)); [by split | done..].
Qed.

(** Both parts of the amended C4 at the two lines above. *)
Lemma parseUserData_delimiter_witness :
  parseUserData ("Bob" +:+ "," +:+ "20" +:+ "," +:+ "a@b,c.com") =
    inr (Some (mkUser "Bob" 20 "a@b,c.com")) /\
  parseUserData (("1" +:+ "," +:+ "2") +:+ "," +:+ "3" +:+ "," +:+ "e@x") =
    inr (Some (mkUser "1" 2 "3,e@x")).
Proof.
  split.
  - apply (proj1 parseUserData_delimiter "Bob" "20" "a@b,c.com" "Bob" "20" "a@b,c.com" 20);
      first [compute_done | by apply trim_spec | reflexivity].
  - apply (proj2 parseUserData_delimiter "1" "2" "3" "e@x" "1" "2" "3,e@x");
      first [compute_done | by apply trim_spec].
Defined.

(** ** C10 *)

(** C10, as stated, fails when the integer the age field starts with is no
    [int]: "99999999999" is a base-10 integer and is followed by "x", but
    [stoi] throws [out_of_range] and the line is rejected. *)
Lemma parseUserData_prefix_counterexample :
  fields "Bob, 99999999999x, bob@x.com" "Bob" " 99999999999x" " bob@x.com" /\
  trimmed " 99999999999x" (sign_text NoSign +:+ "99999999999" +:+ "x") /\
  digit_string "99999999999" /\
  ~ is_digit "x" /\
  parseUserData "Bob, 99999999999x, bob@x.com" = inr None.
Proof.
  split; [split; [reflexivity | split; compute_done]|].
  split; [by apply trim_spec|].
  split; [split; [done | repeat constructor; unfold is_digit; vm_compute; lia]|].
  split; [unfold is_digit; vm_compute; lia | reflexivity].
Qed.

(** C10, amended. When the trimmed age field starts with a base-10 integer
    (an optional sign, then digits) and a character that is no digit
    follows, [parseUserData] succeeds if that integer is an [int], and the
    age is that integer: what follows the digits is ignored. If the integer
    is no [int], [parseUserData] returns the null pointer. *)
Theorem parseUserData_prefix s f1 f2 f3 n e sg d c rest :
  fields s f1 f2 f3 ->
  trimmed f1 n ->
  trimmed f2 (sign_text sg +:+ d +:+ String c rest) ->
  trimmed f3 e ->
  digit_string d ->
  ~ is_digit c ->
  (INT_MIN <= literal_value sg d <= INT_MAX ->
   parseUserData s = inr (Some (mkUser n (literal_value sg d) e))) /\
  (~ INT_MIN <= literal_value sg d <= INT_MAX ->
   parseUserData s = inr None).
Proof.
  intros F T1 T2 T3 Hd Hc.
  rewrite (parseUserData_trimmed _ _ _ _ _ _ _ F T1 T2 T3).
  rewrite stoi_literal; [|done|].
  2: { simpl. apply digit_of_None in Hc. by rewrite Hc. }
  split; intros Hv.
  - assert ((INT_MIN <=? literal_value sg d) && (literal_value sg d <=? INT_MAX) = true)
      as -> by (apply andb_true_iff; split; apply Z.leb_le; lia).
    done.
  - assert ((INT_MIN <=? literal_value sg d) && (literal_value sg d <=? INT_MAX) = false)
      as ->; [|done].
    apply andb_false_iff.
    destruct (Z.leb_spec INT_MIN (literal_value sg d)),
      (Z.leb_spec (literal_value sg d) INT_MAX); auto. lia.
Qed.

(** The amended C10 at the lines "Bob, 17x, bob@x.com" and
    "Bob, -2147483649x, bob@x.com". *)
Lemma parseUserData_prefix_witness :
  parseUserData "Bob, 17x, bob@x.com" = inr (Some (mkUser "Bob" 17 "bob@x.com")) /\
  parseUserData "Bob, -2147483649x, bob@x.com" = inr None.
Proof.
  split.
  - apply (parseUserData_prefix "Bob, 17x, bob@x.com" "Bob" " 17x" " bob@x.com"
             "Bob" "bob@x.com" NoSign "17" "x" "").
    + split; [reflexivity | split; compute_done].
    + by apply trim_spec.
    + by apply trim_spec.
    + by apply trim_spec.
    + split; [done | repeat constructor; unfold is_digit; vm_compute; lia].
    + unfold is_digit; vm_compute; lia.
    + vm_compute. split; discriminate.
  - apply (parseUserData_prefix "Bob, -2147483649x, bob@x.com" "Bob"
             " -2147483649x" " bob@x.com" "Bob" "bob@x.com" Minus "2147483649" "x" "").
    + split; [reflexivity | split; compute_done].
    + by apply trim_spec.
    + by apply trim_spec.
    + by apply trim_spec.
    + split; [done | repeat constructor; unfold is_digit; vm_compute; lia].
    + unfold is_digit; vm_compute; lia.
    + vm_compute. intros [H _]. by apply H.
Defined.

(** ** C5 *)

Lemma batch_step_kept (acc : list User) line :
  (users ← (inr acc : result (list User));
   user ← parseUserData line;
   match user with
   | Some u => if validate u then mret (push_back users u) else mret users
   | None => mret users
   end) = inr (acc ++ option_list (kept line)).
Proof.
  unfold kept. destruct (parseUserData_returns line) as [[u|] ->]; simpl.
  - destruct (validate u); simpl; [done | by rewrite app_nil_r].
  - by rewrite app_nil_r.
Qed.

Lemma batchProcessUsers_from (acc : list User) dataList :
  fold_left
    (fun acc data =>
       users ← acc;
       user ← parseUserData data;
       match user with
       | Some u => if validate u then mret (push_back users u) else mret users
       | None => mret users
       end)
    dataList (inr acc) = inr (acc ++ omap kept dataList).
Proof.
  revert acc. induction dataList as [|line dataList IH]; intros acc;
    cbn [fold_left omap list_omap].
  - by rewrite app_nil_r.
  - rewrite batch_step_kept, IH.
    destruct (kept line); simpl; [by rewrite <- app_assoc | by rewrite app_nil_r].
Qed.

(** C5. [batchProcessUsers] returns, in the order of their lines, the records
    of exactly those lines that [parseUserData] parses into a record that
    validates; the other lines leave no trace. Of the three lines of
    scenario D it keeps David's and Eve's records, in that order. *)
Theorem batchProcessUsers_spec :
  (forall dataList, batchProcessUsers dataList = inr (omap kept dataList)) /\
  (forall line r,
     kept line = Some r <-> parseUserData line = inr (Some r) /\ validate r = true) /\
  (forall (dataList : list string) r,
     r ∈ omap kept dataList <->
     exists line, line ∈ dataList /\
       parseUserData line = inr (Some r) /\ validate r = true) /\
  (forall (before : list string) line after,
     omap kept (before ++ line :: after) =
     omap kept before ++ option_list (kept line) ++ omap kept after) /\
  batchProcessUsers
    ["David,28,david@example.com"; "BadLineNoCommas"; "Eve,35,eve@example.com"] =
  inr [mkUser "David" 28 "david@example.com"; mkUser "Eve" 35 "eve@example.com"].
Proof.
  assert (K : forall line r,
    kept line = Some r <-> parseUserData line = inr (Some r) /\ validate r = true).
  { intros line r. unfold kept.
    destruct (parseUserData line) as [x|[u|]].
    - split; [done | by intros [? _]].
    - destruct (validate u) eqn:V; split.
      + by intros [= <-].
      + by intros [[= <-] _].
      + done.
      + intros [[= <-] V']. congruence.
    - split; [done | by intros [? _]]. }
  split; [|split; [exact K|split; [|split]]].
  - intros dataList. apply (batchProcessUsers_from []).
  - intros dataList r. rewrite list_elem_of_omap.
    split; intros (line & Hin & H); exists line; (split; [done|]); by apply K.
  - intros before line after. rewrite omap_app. simpl.
    by destruct (kept line).
  - reflexivity.
Qed.

(** ** [UserManager] *)

Lemma addUser_invalid w user :
  validate (store w user) = false ->
  addUser user w =
  (false, mkWorld (store w) (users w)
            (output w ++ [(Cerr, "Error: Invalid user data")])).
Proof. intros H. unfold addUser, mbind, M_bind, deref. simpl. by rewrite H. Qed.

Lemma addUser_duplicate w user :
  validate (store w user) = true ->
  is_Some (users w !! email (store w user)) ->
  addUser user w =
  (false, mkWorld (store w) (users w)
            (output w ++ [(Cerr, "Error: User already exists")])).
Proof.
  intros H [p Hp]. unfold addUser, mbind, M_bind, deref, users_find. simpl.
  rewrite H. simpl. by rewrite Hp.
Qed.

Lemma addUser_fresh w user :
  validate (store w user) = true ->
  users w !! email (store w user) = None ->
  addUser user w =
  (true, mkWorld (store w) (<[email (store w user) := user]> (users w))
           (output w ++ [(Cout, "Info: User added successfully")])).
Proof.
  intros H Hp. unfold addUser, mbind, M_bind, deref, users_find. simpl.
  rewrite H. simpl. by rewrite Hp.
Qed.

(** The three outcomes of [addUser], by cases. *)
Lemma addUser_cases w user :
  (validate (store w user) = false /\
   addUser user w =
   (false, mkWorld (store w) (users w)
             (output w ++ [(Cerr, "Error: Invalid user data")]))) \/
  (validate (store w user) = true /\
   is_Some (users w !! email (store w user)) /\
   addUser user w =
   (false, mkWorld (store w) (users w)
             (output w ++ [(Cerr, "Error: User already exists")]))) \/
  (validate (store w user) = true /\
   users w !! email (store w user) = None /\
   addUser user w =
   (true, mkWorld (store w) (<[email (store w user) := user]> (users w))
            (output w ++ [(Cout, "Info: User added successfully")]))).
Proof.
  destruct (validate (store w user)) eqn:V.
  - destruct (users w !! email (store w user)) as [p|] eqn:F.
    + right; left. split; [done|]. split; [by eexists|].
      by apply addUser_duplicate; [|eexists].
    + right; right. split; [done|]. split; [done|]. by apply addUser_fresh.
  - left. split; [done|]. by apply addUser_invalid.
Qed.

Lemma addUser_store w user : store (addUser user w).2 = store w.
Proof.
  destruct (addUser_cases w user) as [[_ ->]|[(_ & _ & ->)|(_ & _ & ->)]]; done.
Qed.

(** ** C2 *)




(** ** C6 *)

Lemma entries_perm (m : gmap string loc) : entries m ≡ₚ map_to_list m.
Proof. apply merge_sort_Permutation. Qed.

Lemma elem_of_entries (m : gmap string loc) key p :
  (key, p) ∈ entries m <-> m !! key = Some p.
Proof. by rewrite entries_perm, elem_of_map_to_list. Qed.

(** A loop that appends what passes a test is a filter. *)
Lemma fold_push_back_filter {A B} (test : A -> bool) (g : A -> B) l acc :
  fold_left (fun acc x => if test x then push_back acc (g x) else acc) l acc =
  acc ++ (g <$> filter (fun x => test x) l).
Proof.
  revert acc. induction l as [|x l IH]; intros acc; simpl.
  - by rewrite app_nil_r.
  - rewrite IH. rewrite filter_cons. unfold push_back.
    destruct (test x); simpl; [by rewrite <- app_assoc | done].
Qed.

Lemma getAdultUsers_filter w :
  getAdultUsers w =
  ((filter (fun pair => isAdult (store w pair.2)) (entries (users w))).*2, w).
Proof.
  unfold getAdultUsers. f_equal.
  exact (fold_push_back_filter (fun pair : string * loc => isAdult (store w pair.2))
           snd (entries (users w)) []).
Qed.

(** C6. [getAdultUsers] returns the handles of exactly the stored records
    whose age is at least 18, one for every such entry, and changes nothing.
    [isAdult] looks at the age only: a stored record that does not validate
    but is 18 or more is returned too. *)
Theorem getAdultUsers_spec :
  (forall u, isAdult u = true <-> 18 <= age u) /\
  (forall w, (getAdultUsers w).2 = w) /\
  (forall w p,
     p ∈ (getAdultUsers w).1 <->
     exists key, users w !! key = Some p /\ 18 <= age (store w p)) /\
  (forall w,
     (getAdultUsers w).1 ≡ₚ
     (filter (fun pair => isAdult (store w pair.2)) (map_to_list (users w))).*2) /\
  (forall w key p,
     users w !! key = Some p ->
     validate (store w p) = false -> 18 <= age (store w p) ->
     p ∈ (getAdultUsers w).1) /\
  (validate (mkUser "" 200 "nobody") = false /\
   isAdult (mkUser "" 200 "nobody") = true).
Proof.
  assert (A : forall u, isAdult u = true <-> 18 <= age u).
  { intros u. unfold isAdult. apply Z.leb_le. }
  assert (S : forall w p,
     p ∈ (getAdultUsers w).1 <->
     exists key, users w !! key = Some p /\ 18 <= age (store w p)).
  { intros w p. rewrite getAdultUsers_filter. simpl.
    rewrite list_elem_of_fmap. split.
    - intros ([key q] & -> & [Hq Hin]%list_elem_of_filter). simpl in *.
      exists key. split; [by apply elem_of_entries|].
      apply A. by apply Is_true_true.
    - intros (key & Hin & Hage). exists (key, p). split; [done|].
      apply list_elem_of_filter. split; [|by apply elem_of_entries].
      simpl. apply Is_true_true. by apply A. }
  split; [exact A|]. split; [|split; [exact S|split; [|split]]].
  - intros w. by rewrite getAdultUsers_filter.
  - intros w. rewrite getAdultUsers_filter. simpl. by rewrite entries_perm.
  - intros w key p Hin _ Hage. apply S. by exists key.
  - split; reflexivity.
Qed.

(** The fifth part of C6 in a registry whose only record has lost its name
    through a handle after it was added. *)
Lemma getAdultUsers_spec_witness :
  let w := mkWorld (fun _ => mkUser "" 25 "alice@example.com")
             {[ "alice@example.com" := 0%nat ]} [] in
  0%nat ∈ (getAdultUsers w).1.
Proof.
  intros w.
  apply (proj1 (proj2 (proj2 (proj2 (proj2 getAdultUsers_spec))))
           w "alice@example.com" 0%nat).
  - reflexivity.
  - reflexivity.
  - simpl. lia.
Defined.

(** ** C9 *)

Lemma entries_keys_NoDup (m : gmap string loc) : NoDup (entries m).*1.
Proof. rewrite entries_perm. apply NoDup_fst_map_to_list. Qed.

Lemma keyed_by_email_step w w' :
  keyed_by_email w -> step w w' -> keyed_by_email w'.
Proof.
  intros Hk Hstep. destruct Hstep as [w user|w mail|w|w p f Hp].
  - destruct (addUser_cases w user) as [[_ ->]|[(_ & _ & ->)|(_ & _ & ->)]];
      [done..|].
    intros key q. simpl. rewrite lookup_insert.
    case_decide as Hkey; [|apply Hk]. by intros [= <-].
  - unfold removeUser, mbind, M_bind, users_find. simpl.
    destruct (users w !! mail); [|done].
    intros key q. simpl. rewrite lookup_delete_Some. intros [_ ?]. by apply Hk.
  - intros key q. simpl. by rewrite lookup_empty.
  - intros key q Hq. simpl in *. rewrite fn_lookup_insert_ne; [by apply Hk|].
    intros <-. apply Hp. by exists key.
Qed.

Lemma registry_invariant_init w : users w = ∅ -> registry_invariant w.
Proof.
  intros E. split; [|apply entries_keys_NoDup].
  intros key p. by rewrite E, lookup_empty.
Qed.

Lemma registry_invariant_step w w' :
  registry_invariant w -> step w w' -> registry_invariant w'.
Proof.
  intros [Hk _] Hstep. split; [|apply entries_keys_NoDup].
  by eapply keyed_by_email_step.
Qed.

Lemma registry_invariant_steps w w' :
  registry_invariant w -> rtc step w w' -> registry_invariant w'.
Proof.
  intros Hw Hsteps. induction Hsteps as [|x y z Hxy _ IH]; [done|].
  apply IH. by eapply registry_invariant_step.
Qed.

(** C9. In every state of the registry reached from an empty one by
    [addUser], [removeUser], [clear] and setters called on records the
    registry does not hold, every entry stands under the email of its
    record and no key occurs twice; each of these steps keeps it so. *)
Theorem registry_invariant_reachable :
  (forall w, users w = ∅ -> registry_invariant w) /\
  (forall w w', registry_invariant w -> step w w' -> registry_invariant w') /\
  (forall w, reachable w -> registry_invariant w).
Proof.
  split; [exact registry_invariant_init|].
  split; [exact registry_invariant_step|].
  intros w (w0 & E & Hsteps).
  apply (registry_invariant_steps w0); [by apply registry_invariant_init | done].
Qed.

(** The invariant after Alice is added and her email taken out again. *)
Lemma registry_invariant_reachable_witness :
  let alice := mkUser "Alice" 25 "alice@example.com" in
  let w := mkWorld (fun _ => alice) ∅ [] in
  registry_invariant (removeUser "alice@example.com" (addUser 0%nat w).2).2.
Proof.
  intros alice w.
  apply (proj2 (proj2 registry_invariant_reachable)).
  exists w. split; [reflexivity|].
  eapply rtc_l; [apply step_addUser|].
  eapply rtc_l; [apply step_removeUser|]. apply rtc_refl.
Defined.

(** What the invariant does not survive: the email of a stored record set
    through a handle. *)
Example setEmail_breaks_invariant :
  let alice := mkUser "Alice" 25 "alice@example.com" in
  let w := (addUser 0%nat (mkWorld (fun _ => alice) ∅ [])).2 in
  registry_invariant w /\
  stored w 0%nat /\
  ~ registry_invariant (update 0%nat (setEmail "al@example.com") w).2.
Proof.
  intros alice w. split; [|split].
  - eapply registry_invariant_step; [|apply step_addUser].
    by apply registry_invariant_init.
  - by exists "alice@example.com".
  - intros [Hk _]. by specialize (Hk "alice@example.com" 0%nat eq_refl).
Qed.

(** ** C7 *)

Lemma wrap_int_add a b : wrap_int (wrap_int a + b) = wrap_int (a + b).
Proof.
  unfold wrap_int.
  replace ((a + 2 ^ 31) mod 2 ^ 32 - 2 ^ 31 + b + 2 ^ 31)
    with ((a + 2 ^ 31) mod 2 ^ 32 + b) by lia.
  rewrite Zplus_mod_idemp_l. f_equal. f_equal. lia.
Qed.

Lemma wrap_int_small z : INT_MIN <= z <= INT_MAX -> wrap_int z = z.
Proof.
  unfold wrap_int, INT_MIN, INT_MAX. intros H.
  rewrite Z.mod_small; lia.
Qed.

(** The running total of the loop is the sum of the ages, wrapped. *)
Lemma total_wrapped users acc :
  fold_left (fun total user => wrap_int (total + age user)) users (wrap_int acc) =
  wrap_int (acc + sum_ages users).
Proof.
  revert acc. induction users as [|u users IH]; intros acc; simpl.
  - f_equal. lia.
  - rewrite wrap_int_add, IH. f_equal. lia.
Qed.

(** C7, as stated, fails when the ages do not sum to an [int]: the total of
    two records of age 2147483647 wraps to -2, and the result is -1.0 where
    the mean is 2147483647.0. *)
Lemma calculateAverageAge_counterexample :
  calculateAverageAge [mkUser "a" 2147483647 "a@x"; mkUser "b" 2147483647 "b@x"] =
    (-1)%float /\
  PrimFloat.div (double_of_int (2147483647 + 2147483647)) (double_of_size 2) =
    2147483647%float.
Proof. split; reflexivity. Qed.

(** C7, amended. [calculateAverageAge] of no record is 0.0; of [n > 0]
    records whose ages sum to an [int] it is that sum divided by [n] in
    double precision, the arithmetic mean rounded once. *)
Theorem calculateAverageAge_spec :
  calculateAverageAge [] = 0%float /\
  forall users,
    users <> [] ->
    INT_MIN <= sum_ages users <= INT_MAX ->
    calculateAverageAge users =
    PrimFloat.div (double_of_int (sum_ages users)) (double_of_size (length users)).
Proof.
  split; [reflexivity|]. intros users Hne Hsum.
  destruct users as [|u users]; [done|].
  unfold calculateAverageAge.
  change 0 with (wrap_int 0) at 1.
  by rewrite total_wrapped, Z.add_0_l, wrap_int_small.
Qed.

(** The amended C7 on two records of ages 25 and 30: 27.5. *)
Lemma calculateAverageAge_spec_witness :
  calculateAverageAge [mkUser "a" 25 "a@x"; mkUser "b" 30 "b@x"] = 27.5%float.
Proof.
  rewrite (proj2 calculateAverageAge_spec
             [mkUser "a" 25 "a@x"; mkUser "b" 30 "b@x"]).
  - reflexivity.
  - discriminate.
  - vm_compute. split; discriminate.
Defined.

(** ** C8 *)

Lemma age_comp_strict_weak_order ascending :
  strict_weak_order (age_comp ascending).
Proof.
  unfold age_comp. split; destruct ascending; intros *;
    rewrite ?Z.gtb_ltb, ?Z.ltb_lt, ?Z.ltb_ge; lia.
Qed.

Section StdSort.
Context {A : Type} (comp : A -> A -> bool) (Hcomp : strict_weak_order comp).

#[local] Instance not_greater_total : Total (not_greater comp).
Proof.
  intros x y. unfold not_greater.
  destruct (comp y x) eqn:Eyx; [|by left]. right.
  destruct (comp x y) eqn:Exy; [|done].
  by rewrite <- (swo_irrefl comp Hcomp x), (swo_trans comp Hcomp x y x).
Qed.

#[local] Instance not_greater_trans : Transitive (not_greater comp).
Proof.
  intros x y z. unfold not_greater. intros Hyx Hzy.
  destruct (comp z x) eqn:Ezx; [|done].
  destruct (comp x y) eqn:Exy.
  { by rewrite <- Hzy, (swo_trans comp Hcomp z x y). }
  destruct (comp y z) eqn:Eyz.
  { by rewrite <- Hyx, (swo_trans comp Hcomp y z x). }
  destruct (swo_incomp_trans comp Hcomp x y z Exy Hyx Eyz Hzy) as [_ ?].
  congruence.
Qed.

Lemma StronglySorted_lookup_lt (R : relation A) l i j x y :
  StronglySorted R l -> (i < j)%nat ->
  l !! i = Some x -> l !! j = Some y -> R x y.
Proof.
  intros Hl. revert i j. induction Hl as [|a l Hl IH Hall]; intros i j Hij Hi Hj.
  - done.
  - destruct j as [|j]; [lia|]. simpl in Hj.
    destruct i as [|i]; simpl in Hi.
    + injection Hi as ->. rewrite Forall_forall in Hall. apply Hall.
      by eapply list_elem_of_lookup_2.
    + apply (IH i j); [lia | done..].
Qed.

Lemma merge_std_sort_sorted v i j x y :
  (i < j)%nat ->
  merge_std_sort A comp v !! i = Some x ->
  merge_std_sort A comp v !! j = Some y ->
  comp y x = false.
Proof.
  intros Hij Hi Hj.
  apply (StronglySorted_lookup_lt (not_greater comp) (merge_std_sort A comp v) i j);
    [|done..].
  apply StronglySorted_merge_sort; apply _.
Qed.
End StdSort.

(** Merge sort is a [std::sort]. *)
Lemma merge_std_sort_contract : sort_contract merge_std_sort.
Proof.
  intros A comp v Hcomp. split.
  - symmetry. apply merge_sort_Permutation.
  - intros i j x y. by apply merge_std_sort_sorted.
Qed.

Section SortByAgeSpec.
Variable std_sort : forall A, (A -> A -> bool) -> list A -> list A.
Hypothesis std_sort_conforms : sort_contract std_sort.

(** C8. For every [std::sort] that keeps the contract of the standard:
    after [sortByAge] with [ascending = true] the age of every element is at
    most the age of the next one, and with [ascending = false] at least the
    age of the next one. The sequence holds the records it held before. *)
Theorem sortByAge_sorted (users : list User) :
  (forall i x y,
     sortByAge std_sort users true !! i = Some x ->
     sortByAge std_sort users true !! S i = Some y ->
     age x <= age y) /\
  (forall i x y,
     sortByAge std_sort users false !! i = Some x ->
     sortByAge std_sort users false !! S i = Some y ->
     age x >= age y) /\
  (forall ascending, users ≡ₚ sortByAge std_sort users ascending).
Proof.
  unfold sortByAge. split; [|split].
  - intros i x y Hx Hy.
    destruct (std_sort_conforms User (age_comp true) users
                (age_comp_strict_weak_order true)) as [_ Hs].
    specialize (Hs i (S i) x y (Nat.lt_succ_diag_r i) Hx Hy).
    unfold age_comp in Hs. apply Z.ltb_ge in Hs. lia.
  - intros i x y Hx Hy.
    destruct (std_sort_conforms User (age_comp false) users
                (age_comp_strict_weak_order false)) as [_ Hs].
    specialize (Hs i (S i) x y (Nat.lt_succ_diag_r i) Hx Hy).
    unfold age_comp in Hs. rewrite Z.gtb_ltb in Hs. apply Z.ltb_ge in Hs. lia.
  - intros ascending.
    by destruct (std_sort_conforms User (age_comp ascending) users
                   (age_comp_strict_weak_order ascending)) as [? _].
Qed.
End SortByAgeSpec.

(** C8 with merge sort for [std::sort], on records of ages 35, 30 and 31:
    30 comes first and 31 next. *)
Lemma sortByAge_sorted_witness :
  age (mkUser "b" 30 "b@x") <= age (mkUser "c" 31 "c@x").
Proof.
  apply (proj1 (sortByAge_sorted merge_std_sort merge_std_sort_contract
                  [mkUser "a" 35 "a@x"; mkUser "b" 30 "b@x"; mkUser "c" 31 "c@x"])
           0%nat).
  - reflexivity.
  - reflexivity.
Defined.

(** ** Further properties of the specification *)

(** [filterByAgeRange] keeps, in their order, the records whose age lies
    between the two bounds, the bounds included: of the ages 17, 20, 25, 30
    and 35 the range 20 to 30 keeps 20, 25 and 30. *)
Theorem filterByAgeRange_spec :
  (forall users minAge maxAge,
     filterByAgeRange users minAge maxAge =
     filter (fun u => minAge <= age u /\ age u <= maxAge) users) /\
  age <$> filterByAgeRange
            [mkUser "a" 17 "a@x"; mkUser "b" 20 "b@x"; mkUser "c" 25 "c@x";
             mkUser "d" 30 "d@x"; mkUser "e" 35 "e@x"] 20 30 = [20; 25; 30].
Proof.
  split; [|reflexivity]. intros users minAge maxAge.
  unfold filterByAgeRange.
  rewrite (fold_push_back_filter
             (fun u => (minAge <=? age u) && (age u <=? maxAge)) id).
  rewrite list_fmap_id. simpl. apply list_filter_iff. intros u.
  rewrite andb_True, !Is_true_true, !Z.leb_le. done.
Qed.

(** [removeUser] takes the entry of an email out of the registry and
    returns true; for an email that is no key it changes nothing and
    returns false. *)
Theorem removeUser_spec (w : World) (mail : string) :
  (is_Some (users w !! mail) ->
   removeUser mail w =
   (true, mkWorld (store w) (delete mail (users w)) (output w))) /\
  (users w !! mail = None -> removeUser mail w = (false, w)).
Proof.
  unfold removeUser, mbind, M_bind, users_find, users_erase. simpl.
  split; [intros [p ->] | intros ->]; done.
Qed.

(** [removeUser] on the registry that holds Alice only. *)
Lemma removeUser_spec_witness :
  let w := mkWorld (fun _ => mkUser "Alice" 25 "alice@example.com")
             {[ "alice@example.com" := 0%nat ]} [] in
  (removeUser "alice@example.com" w).1 = true /\
  removeUser "bob@example.com" w = (false, w).
Proof.
  intros w. split.
  - rewrite (proj1 (removeUser_spec w "alice@example.com")); [done | by eexists].
  - by apply (proj2 (removeUser_spec w "bob@example.com")).
Defined.

(** ** The registry: lookup, count, removal *)

Lemma addUser_true w user :
  (addUser user w).1 = true <->
  validate (store w user) = true /\ users w !! email (store w user) = None.
Proof.
  destruct (addUser_cases w user) as [[V ->]|[(V & [p F] & ->)|(V & F & ->)]];
    simpl; split; try done; intros [? ?]; congruence.
Qed.

Lemma addUser_users w user :
  users (addUser user w).2 =
  if (addUser user w).1 then <[email (store w user) := user]> (users w)
  else users w.
Proof.
  destruct (addUser_cases w user) as [[_ ->]|[(_ & _ & ->)|(_ & _ & ->)]]; done.
Qed.

Lemma removeUser_users w mail :
  users (removeUser mail w).2 = delete mail (users w) /\
  store (removeUser mail w).2 = store w /\
  ((removeUser mail w).1 = true <-> is_Some (users w !! mail)).
Proof.
  unfold removeUser, mbind, M_bind, users_find, users_erase. simpl.
  destruct (users w !! mail) as [p|] eqn:E; simpl.
  - split; [done|]. split; [done|]. split; [by eexists | done].
  - split; [by rewrite delete_id|]. split; [done|].
    split; [done | by intros [? ?]].
Qed.

(** After [addUser] returns true, [getUser] on the email of the record
    returns the handle that was added. Whatever [addUser] returns, a handle
    that [getUser] returned before is still returned for the same key (an
    entry is never overwritten), and the other keys answer as before.
    [getUser] changes nothing. *)
Theorem addUser_getUser (w : World) (user : loc) :
  ((addUser user w).1 = true ->
   (getUser (email (store w user)) (addUser user w).2).1 = Some user) /\
  (forall key p,
     (getUser key w).1 = Some p ->
     (getUser key (addUser user w).2).1 = Some p) /\
  (forall key,
     key <> email (store w user) ->
     (getUser key (addUser user w).2).1 = (getUser key w).1) /\
  (forall key, (getUser key w).2 = w).
Proof.
  unfold getUser, users_find. simpl. rewrite addUser_users.
  split; [|split; [|split]].
  - intros ->. by rewrite lookup_insert_eq.
  - intros key p Hp. destruct (addUser user w).1 eqn:E; [|done].
    apply addUser_true in E as [_ F]. rewrite lookup_insert_ne; [done|].
    intros <-. congruence.
  - intros key Hne. destruct (addUser user w).1; [|done].
    by rewrite lookup_insert_ne.
  - done.
Qed.

(** Alice is found under her email once she is added. *)
Lemma addUser_getUser_witness :
  let w := mkWorld (fun _ => mkUser "Alice" 25 "alice@example.com") ∅ [] in
  (getUser "alice@example.com" (addUser 0%nat w).2).1 = Some 0%nat.
Proof.
  intros w. apply (proj1 (addUser_getUser w 0%nat)). reflexivity.
Defined.

(** [countUsers] grows by one when [addUser] returns true and stays when it
    returns false; it falls by one when [removeUser] returns true and stays
    when it returns false; it is the number of entries the iteration over
    the map visits. *)
Theorem countUsers_changes (w : World) :
  (forall user,
     (countUsers (addUser user w).2).1 =
     if (addUser user w).1 then S (countUsers w).1 else (countUsers w).1) /\
  (forall mail,
     (countUsers w).1 =
     if (removeUser mail w).1 then S (countUsers (removeUser mail w).2).1
     else (countUsers (removeUser mail w).2).1) /\
  (countUsers w).1 = length (entries (users w)) /\
  (countUsers w).2 = w.
Proof.
  unfold countUsers. simpl. split; [|split; [|split]].
  - intros user. rewrite addUser_users.
    destruct (addUser user w).1 eqn:E; [|done].
    apply addUser_true in E as [_ F]. by apply map_size_insert_None.
  - intros mail. destruct (removeUser_users w mail) as (-> & _ & H).
    destruct (removeUser mail w).1.
    + destruct (proj1 H eq_refl) as [p Hp].
      rewrite map_size_delete, Hp. simpl.
      assert (size (users w) <> 0)%nat; [|lia].
      intros Hz%map_size_empty_inv. by rewrite Hz, lookup_empty in Hp.
    + destruct (users w !! mail) as [p|] eqn:Hp.
      * assert (false = true) by (apply H; by eexists). done.
      * by rewrite map_size_delete_None.
  - by rewrite entries_perm, length_map_to_list.
  - done.
Qed.

(** [removeUser] undoes [addUser]: after a record was added, removing its
    email returns true and leaves the map as it was before the addition.
    After [removeUser], whatever it returns, [getUser] finds nothing under
    that email, the other keys answer as before, and a valid record with
    that email can be added. *)
Theorem addUser_removeUser (w : World) :
  (forall user,
     (addUser user w).1 = true ->
     (removeUser (email (store w user)) (addUser user w).2).1 = true /\
     users (removeUser (email (store w user)) (addUser user w).2).2 = users w) /\
  (forall mail,
     (getUser mail (removeUser mail w).2).1 = None /\
     (forall key, key <> mail ->
        (getUser key (removeUser mail w).2).1 = (getUser key w).1) /\
     (forall user,
        validate (store w user) = true -> email (store w user) = mail ->
        (addUser user (removeUser mail w).2).1 = true)).
Proof.
  split.
  - intros user E.
    destruct (removeUser_users (addUser user w).2 (email (store w user)))
      as (-> & _ & H).
    rewrite addUser_users, E in H |- *. split.
    + apply H. rewrite lookup_insert_eq. by eexists.
    + apply addUser_true in E as [_ F]. by rewrite delete_insert_id.
  - intros mail. destruct (removeUser_users w mail) as (Hu & Hs & _).
    unfold getUser, users_find. simpl. rewrite Hu.
    split; [apply lookup_delete_eq|]. split.
    + intros key Hne. by apply lookup_delete_ne.
    + intros user V <-. apply addUser_true.
      rewrite Hs, Hu. split; [done | apply lookup_delete_eq].
Qed.

(** Alice is added and removed again: the registry is empty as before. *)
Lemma addUser_removeUser_witness :
  let w := mkWorld (fun _ => mkUser "Alice" 25 "alice@example.com") ∅ [] in
  users (removeUser "alice@example.com" (addUser 0%nat w).2).2 = ∅.
Proof.
  intros w. apply (proj1 (addUser_removeUser w) 0%nat). reflexivity.
Defined.

(** After [clear] the registry holds nothing: the count is 0, [getUser]
    finds no key, [getAdultUsers] is empty, and every valid record can be
    added. The records themselves and what was written stay as they were. *)
Theorem clear_spec (w : World) :
  (countUsers (clear w).2).1 = O /\
  (forall key, (getUser key (clear w).2).1 = None) /\
  (getAdultUsers (clear w).2).1 = [] /\
  (forall user,
     validate (store w user) = true -> (addUser user (clear w).2).1 = true) /\
  store (clear w).2 = store w /\
  output (clear w).2 = output w.
Proof.
  split; [|split; [|split; [|split]]].
  - unfold countUsers. simpl. apply map_size_empty.
  - intros key. unfold getUser, users_find. simpl. apply lookup_empty.
  - reflexivity.
  - intros user V. apply addUser_true. simpl. split; [done | apply lookup_empty].
  - done.
Qed.

(** ** The registry: what holds of reachable states *)

Lemma validate_isAdult u : validate u = true -> isAdult u = true.
Proof.
  unfold validate, validateAge, isAdult.
  rewrite !andb_true_iff. tauto.
Qed.

Lemma filter_all {A} (P : A -> Prop) `{!forall x, Decision (P x)} (l : list A) :
  Forall P l -> filter P l = l.
Proof.
  induction 1 as [|x l Hx _ IH]; [done|].
  rewrite filter_cons. destruct (decide (P x)); [by rewrite IH | done].
Qed.

Lemma all_valid_step w w' : all_valid w -> step w w' -> all_valid w'.
Proof.
  intros Hv Hstep. destruct Hstep as [w user|w mail|w|w p f Hp].
  - intros key q. rewrite addUser_store, addUser_users.
    destruct (addUser user w).1 eqn:E; [|apply Hv].
    apply addUser_true in E as [V _]. rewrite lookup_insert.
    case_decide; [|apply Hv]. by intros [= <-].
  - destruct (removeUser_users w mail) as (Hu & Hs & _).
    intros key q. rewrite Hu, Hs, lookup_delete_Some. intros [_ ?]. by eapply Hv.
  - intros key q. simpl. by rewrite lookup_empty.
  - intros key q Hq. simpl in *. rewrite fn_lookup_insert_ne; [by eapply Hv|].
    intros <-. apply Hp. by exists key.
Qed.

(** In every state reached from an empty registry by [addUser],
    [removeUser], [clear] and setters on records the registry does not hold,
    every stored record validates. So there [getAdultUsers] returns the
    handles of all the entries, as many as [countUsers] counts. *)
Theorem reachable_all_valid :
  (forall w w', all_valid w -> step w w' -> all_valid w') /\
  (forall w, reachable w -> all_valid w) /\
  (forall w,
     all_valid w ->
     (getAdultUsers w).1 = (entries (users w)).*2 /\
     length (getAdultUsers w).1 = (countUsers w).1).
Proof.
  split; [exact all_valid_step|]. split.
  - intros w (w0 & E & Hsteps).
    assert (H0 : all_valid w0) by (intros key p; by rewrite E, lookup_empty).
    clear E. induction Hsteps as [|x y z Hxy _ IH]; [done|].
    apply IH. by eapply all_valid_step.
  - intros w Hv.
    assert (E : (getAdultUsers w).1 = (entries (users w)).*2).
    { rewrite getAdultUsers_filter. simpl. f_equal. apply filter_all.
      apply Forall_forall. intros [key p] Hin%elem_of_entries. simpl.
      apply Is_true_true, validate_isAdult. by eapply Hv. }
    split; [done|]. rewrite E, length_fmap. unfold countUsers. simpl.
    by rewrite entries_perm, length_map_to_list.
Qed.

(** After Alice and Bob are added, both are returned as adults. *)
Lemma reachable_all_valid_witness :
  let people := fun p : loc =>
    match p with
    | O => mkUser "Bob" 30 "bob@example.com"
    | _ => mkUser "Alice" 25 "alice@example.com"
    end in
  let w := (addUser 1%nat (addUser 0%nat (mkWorld people ∅ [])).2).2 in
  length (getAdultUsers w).1 = (countUsers w).1.
Proof.
  intros people w.
  apply (proj2 (proj2 reachable_all_valid)).
  apply (proj1 (proj2 reachable_all_valid)).
  exists (mkWorld people ∅ []). split; [reflexivity|].
  eapply rtc_l; [apply step_addUser|]. apply rtc_once, step_addUser.
Defined.

#[local] Instance by_key_total : Total by_key.
Proof. intros x y. apply (total String.le). Qed.

#[local] Instance by_key_trans : Transitive by_key.
Proof. intros x y z. unfold by_key. apply transitivity. Qed.

Lemma StronglySorted_sublist {A} (R : relation A) l1 l2 :
  l1 `sublist_of` l2 -> StronglySorted R l2 -> StronglySorted R l1.
Proof.
  induction 1 as [|x l1 l2 Hsub IH|x l1 l2 Hsub IH]; intros Hs.
  - done.
  - apply StronglySorted_inv in Hs as [Hs Hall]. constructor; [by apply IH|].
    apply Forall_forall. intros y Hy. rewrite Forall_forall in Hall.
    apply Hall. by eapply elem_of_sublist.
  - apply StronglySorted_inv in Hs as [Hs _]. by apply IH.
Qed.

(** When every entry stands under the email of its record, the handles
    [getAdultUsers] returns come in ascending order of the emails of their
    records (the order of the keys of the map), and no email comes twice. *)
Theorem getAdultUsers_order (w : World) :
  keyed_by_email w ->
  StronglySorted String.le
    ((fun p => email (store w p)) <$> (getAdultUsers w).1) /\
  NoDup ((fun p => email (store w p)) <$> (getAdultUsers w).1).
Proof.
  intros Hk. rewrite getAdultUsers_filter. simpl.
  set (adults := filter (fun pair : string * loc => isAdult (store w pair.2))
                   (entries (users w))).
  assert (Hsub : adults `sublist_of` entries (users w)) by apply sublist_filter.
  assert (E : (fun p => email (store w p)) <$> adults.*2 = adults.*1).
  { rewrite <- list_fmap_compose. apply list_fmap_ext.
    intros i [key p] Hi. simpl. apply Hk, elem_of_entries.
    eapply elem_of_sublist; [|exact Hsub]. by eapply list_elem_of_lookup_2. }
  rewrite E. split.
  - apply StronglySorted_fmap with (R1 := by_key); [done|].
    apply (StronglySorted_sublist _ _ _ Hsub).
    apply StronglySorted_merge_sort; apply _.
  - eapply sublist_NoDup; [apply entries_keys_NoDup|]. by apply fmap_sublist.
Qed.

(** Bob is added before Alice; Alice comes out first. *)
Lemma getAdultUsers_order_witness :
  let people := fun p : loc =>
    match p with
    | O => mkUser "Bob" 30 "bob@example.com"
    | _ => mkUser "Alice" 25 "alice@example.com"
    end in
  let w := (addUser 1%nat (addUser 0%nat (mkWorld people ∅ [])).2).2 in
  (getAdultUsers w).1 = [1%nat; 0%nat] /\
  StronglySorted String.le
    ((fun p => email (store w p)) <$> (getAdultUsers w).1).
Proof.
  intros people w. split; [reflexivity|].
  apply (getAdultUsers_order w).
  eapply keyed_by_email_step; [|apply step_addUser].
  eapply keyed_by_email_step; [|apply step_addUser].
  intros key p. simpl. by rewrite lookup_empty.
Defined.

(** ** [printAllUsers] *)

Lemma for_each_write (f : User -> string) range w :
  for_each range (fun pair : string * loc => u ← deref pair.2; write Cout (f u)) w =
  (tt, mkWorld (store w) (users w)
         (output w ++ ((fun pair => (Cout, f (store w pair.2))) <$> range))).
Proof.
  revert w. induction range as [|pair range IH]; intros w.
  - simpl. rewrite app_nil_r. by destruct w.
  - cbn [for_each]. unfold mbind at 1, M_bind at 1.
    unfold mbind at 1, M_bind at 1, deref, write. simpl.
    rewrite IH. simpl. by rewrite <- app_assoc.
Qed.

(** [printAllUsers] writes to the standard output the heading and then one
    line for every entry, in the order of the keys: two spaces and the
    summary of the record. It writes [countUsers] lines after the heading,
    and leaves the records and the map as they are. *)
Theorem printAllUsers_spec (w : World) :
  output (printAllUsers w).2 =
    output w ++ (Cout, String "010" "All users:") ::
      ((fun pair => (Cout, "  " +:+ getSummary (store w pair.2))) <$>
         entries (users w)) /\
  length (output (printAllUsers w).2) =
    (length (output w) + 1 + (countUsers w).1)%nat /\
  users (printAllUsers w).2 = users w /\
  store (printAllUsers w).2 = store w.
Proof.
  assert (E : printAllUsers w =
    (tt, mkWorld (store w) (users w)
           (output w ++ (Cout, String "010" "All users:") ::
              ((fun pair => (Cout, "  " +:+ getSummary (store w pair.2))) <$>
                 entries (users w))))).
  { unfold printAllUsers, mbind, M_bind, users_entries, write. simpl.
    rewrite (for_each_write (fun u => "  " +:+ getSummary u)). simpl.
    by rewrite <- app_assoc. }
  rewrite E. simpl. split; [done|]. split; [|done].
  rewrite length_app. simpl. rewrite length_fmap.
  unfold countUsers. simpl. rewrite entries_perm, length_map_to_list. lia.
Qed.

(** ** More on [trim] and [parseUserData] *)

Lemma trimmed_self t : no_space_around t -> trimmed t t.
Proof.
  intros [H1 H2]. exists O, O. split; [|done].
  simpl. by rewrite app_empty_l, app_empty_r.
Qed.

Lemma no_space_chars t : " "%char ∉ chars t -> no_space_around t.
Proof.
  intros H. split; intros t' ->; apply H.
  - simpl. by left.
  - rewrite chars_app. apply elem_of_app. right. simpl. by left.
Qed.

Lemma spaces_add a b : spaces (a + b) = spaces a +:+ spaces b.
Proof.
  induction a as [|a IH]; simpl; [by rewrite app_empty_l|].
  by rewrite IH, app_cons.
Qed.

Lemma chars_spaces c n : c ∈ chars (spaces n) -> c = " "%char.
Proof.
  induction n as [|n IH]; simpl; [by intros ?%elem_of_nil|].
  intros [->|?]%elem_of_cons; [done | by apply IH].
Qed.

Lemma trimmed_padding a b f t : trimmed f t -> trimmed (spaces a +:+ f +:+ spaces b) t.
Proof.
  intros (l & r & -> & H). exists (a + l)%nat, (r + b)%nat. split; [|done].
  by rewrite !spaces_add, !app_assoc_str.
Qed.

(** [trim] never throws. What it returns neither starts nor ends with a
    space, is no longer than its argument and is left as it is by a second
    [trim]; a string with no space at either end is returned as it is, and
    a string of spaces only gives the empty string. *)
Theorem trim_idempotent (s : string) :
  (exists t,
     trim s = inr t /\ no_space_around t /\ trim t = inr t /\
     (String.length t <= String.length s)%nat) /\
  (no_space_around s -> trim s = inr s) /\
  (forall n, trim (spaces n) = inr EmptyString).
Proof.
  split; [|split].
  - destruct (trimmed_exists s) as (t & H). exists t.
    pose proof H as (l & r & E & Hns).
    split; [by apply trim_of_trimmed|]. split; [done|].
    split; [by apply trim_of_trimmed, trimmed_self|].
    rewrite E, !length_app_str. lia.
  - intros H. by apply trim_of_trimmed, trimmed_self.
  - intros n. apply trim_of_trimmed. exists n, O. split; [|split].
    + simpl. by rewrite app_empty_l, app_empty_r.
    + done.
    + intros [|??]; done.
Qed.

(** The second part at the string "Bob". *)
Lemma trim_idempotent_witness : trim "Bob" = inr "Bob".
Proof.
  apply (proj1 (proj2 (trim_idempotent "Bob"))).
  apply no_space_chars. compute_done.
Defined.

Lemma stoi_range a k : stoi a = inr k -> INT_MIN <= k <= INT_MAX.
Proof.
  unfold stoi. destruct (split_sign (skip_space a)) as [neg body].
  destruct (leading_digits body) as [|d ds]; [done|].
  set (v := if neg then _ else _).
  destruct (INT_MIN <=? v) eqn:E1, (v <=? INT_MAX) eqn:E2; simpl; try done.
  intros [= <-]. apply Z.leb_le in E1, E2. lia.
Qed.

(** Every record [parseUserData] returns has a name without a comma, a name
    and an email with no space at either end, and an age that is an [int];
    its line has two commas at least. *)
Theorem parseUserData_record (s : string) (u : User) :
  parseUserData s = inr (Some u) ->
  (","%char ∉ chars (name u)) /\
  no_space_around (name u) /\
  no_space_around (email u) /\
  INT_MIN <= age u <= INT_MAX /\
  (2 <= occurrences "," s)%nat.
Proof.
  intros P.
  destruct (decide (occurrences "," s < 2)%nat) as [H|H].
  { by rewrite parseUserData_few in P. }
  destruct (fields_exist s) as (f1 & f2 & f3 & F); [lia|].
  destruct (trimmed_exists f1) as [n T1], (trimmed_exists f2) as [a T2],
    (trimmed_exists f3) as [e T3].
  rewrite (parseUserData_trimmed _ _ _ _ _ _ _ F T1 T2 T3) in P.
  destruct (stoi a) as [x|k] eqn:St; [done|]. injection P as <-. simpl.
  destruct F as (_ & Hc & _), T1 as (l & r & E1 & Hn), T3 as (_ & _ & _ & He).
  split; [|split; [done|split; [done|split; [by eapply stoi_range | lia]]]].
  intros Hin. apply Hc. rewrite E1, !chars_app, !elem_of_app. auto.
Qed.

(** The record of the line " Ann Lee , 42 , ann@x.org ". *)
Lemma parseUserData_record_witness :
  no_space_around "Ann Lee" /\ INT_MIN <= 42 <= INT_MAX.
Proof.
  pose proof (parseUserData_record " Ann Lee , 42 , ann@x.org "
                (mkUser "Ann Lee" 42 "ann@x.org") eq_refl) as (_ & H1 & _ & H2 & _).
  split; [exact H1 | exact H2].
Defined.

Lemma fields_padding a b c d e g f1 f2 f3 :
  ","%char ∉ chars f1 -> ","%char ∉ chars f2 ->
  fields ((spaces a +:+ f1 +:+ spaces b) +:+ "," +:+
          (spaces c +:+ f2 +:+ spaces d) +:+ "," +:+
          (spaces e +:+ f3 +:+ spaces g))
    (spaces a +:+ f1 +:+ spaces b) (spaces c +:+ f2 +:+ spaces d)
    (spaces e +:+ f3 +:+ spaces g).
Proof.
  intros H1 H2. split; [done|].
  split; rewrite !chars_app, !elem_of_app;
    intros [Hs|[?|Hs]]; try done; by apply chars_spaces in Hs.
Qed.

(** Spaces around the fields of a line make no difference: the line with
    spaces put before and after each of its three fields is parsed to what
    the line without them is parsed to. *)
Theorem parseUserData_padding (a b c d e g : nat) (f1 f2 f3 : string) :
  ","%char ∉ chars f1 -> ","%char ∉ chars f2 ->
  parseUserData ((spaces a +:+ f1 +:+ spaces b) +:+ "," +:+
                 (spaces c +:+ f2 +:+ spaces d) +:+ "," +:+
                 (spaces e +:+ f3 +:+ spaces g)) =
  parseUserData (f1 +:+ "," +:+ f2 +:+ "," +:+ f3).
Proof.
  intros H1 H2.
  destruct (trimmed_exists f1) as [n T1], (trimmed_exists f2) as [x T2],
    (trimmed_exists f3) as [y T3].
  rewrite (parseUserData_trimmed (f1 +:+ "," +:+ f2 +:+ "," +:+ f3) f1 f2 f3 n x y);
    [|by split|done..].
  eapply parseUserData_trimmed;
    [by apply fields_padding | by apply trimmed_padding..].
Qed.

(** "  Bob ,17,  bob@x.com" is parsed like "Bob,17,bob@x.com". *)
Lemma parseUserData_padding_witness :
  parseUserData "  Bob ,17,  bob@x.com" = parseUserData "Bob,17,bob@x.com".
Proof.
  apply (parseUserData_padding 2 1 0 0 2 0 "Bob" "17" "bob@x.com"); compute_done.
Defined.

(** ** [to_string], and lines written from records *)

Lemma digit_char_value n :
  0 <= n < 10 -> is_digit (digit_char n) /\ digit_value (digit_char n) = n.
Proof.
  intros H. rewrite <- (Z2Nat.id n) by lia.
  assert (Hk : (Z.to_nat n < 10)%nat) by lia.
  revert Hk. generalize (Z.to_nat n). clear. intros k Hk. unfold is_digit.
  do 10 (destruct k as [|k]; [vm_compute; split; first [done | lia]|]).
  lia.
Qed.

Lemma to_digits_acc fuel n acc :
  to_digits fuel n acc = to_digits fuel n EmptyString +:+ acc.
Proof.
  revert n acc. induction fuel as [|fuel IH]; intros n acc; simpl; [done|].
  destruct (n <? 10); [done|].
  rewrite IH, (IH _ (String _ EmptyString)). by rewrite app_assoc_str.
Qed.

Lemma decimal_snoc ds d : decimal (ds ++ [d]) = 10 * decimal ds + d.
Proof. unfold decimal. by rewrite fold_left_app. Qed.

Lemma log2_tenth n fuel :
  10 <= n -> Z.log2 n <= Z.of_nat (S fuel) -> Z.log2 (n / 10) <= Z.of_nat fuel.
Proof.
  intros Hn Hlog.
  assert (n < 2 ^ (Z.of_nat fuel + 2)).
  { apply Z.log2_lt_pow2; lia. }
  assert (0 < n / 10) by (apply Z.div_str_pos; lia).
  assert (n / 10 < 2 ^ (Z.of_nat fuel + 1)); [|apply Z.lt_succ_r, Z.log2_lt_pow2; lia].
  replace (Z.of_nat fuel + 2) with (Z.succ (Z.of_nat fuel + 1)) in * by lia.
  rewrite Z.pow_succ_r in * by lia.
  apply Z.div_lt_upper_bound; lia.
Qed.

(** The digits written for [n] are digits, and denote [n]. *)
Lemma to_digits_spec fuel n :
  0 <= n -> Z.log2 n <= Z.of_nat fuel ->
  digit_string (to_digits fuel n EmptyString) /\
  decimal (digit_value <$> chars (to_digits fuel n EmptyString)) = n.
Proof.
  revert n. induction fuel as [|fuel IH]; intros n Hn Hlog.
  - assert (n < 10).
    { destruct (decide (n < 2)) as [|Hge]; [lia|].
      assert (Z.log2 2 <= Z.log2 n) by (apply Z.log2_le_mono; lia).
      change (Z.log2 2) with 1 in *. lia. }
    cbn [to_digits]. rewrite Z.mod_small by lia.
    destruct (digit_char_value n) as [Hd Hv]; [lia|].
    split; [split; [done | by apply Forall_singleton]|].
    simpl. unfold decimal. simpl. lia.
  - cbn [to_digits]. destruct (Z.ltb_spec n 10) as [Hlt|Hge].
    + rewrite Z.mod_small by lia.
      destruct (digit_char_value n) as [Hd Hv]; [lia|].
      split; [split; [done | by apply Forall_singleton]|].
      simpl. unfold decimal. simpl. lia.
    + rewrite to_digits_acc.
      destruct (IH (n / 10)) as [[Hne Hds] Hval].
      { apply Z.div_pos; lia. }
      { by apply log2_tenth. }
      destruct (digit_char_value (n mod 10)) as [Hd Hv].
      { apply Z.mod_pos_bound. lia. }
      rewrite chars_app, fmap_app. simpl. split; [split|].
      * intros E. apply (f_equal chars) in E. rewrite chars_app in E.
        by destruct (chars (to_digits fuel (n / 10) EmptyString)).
      * rewrite chars_app. apply Forall_app. split; [done | by apply Forall_singleton].
      * rewrite decimal_snoc, Hval, Hv. symmetry. apply Z.div_mod. lia.
Qed.

(** [to_string] writes a literal of its argument. *)
Lemma to_string_literal a :
  exists sg d,
    to_string a = sign_text sg +:+ d /\ digit_string d /\
    literal_value sg d = a /\ (sg = NoSign \/ sg = Minus).
Proof.
  unfold to_string. destruct (Z.ltb_spec a 0) as [Hneg|Hpos].
  - destruct (to_digits_spec (Z.to_nat (Z.log2 (- a))) (- a)) as [Hd Hv]; [lia| |].
    { pose proof (Z.log2_nonneg (- a)). lia. }
    eexists Minus, _. split; [reflexivity|]. split; [done|]. split; [|by right].
    unfold literal_value. rewrite <- decimal_numeral, Hv. lia.
  - destruct (to_digits_spec (Z.to_nat (Z.log2 a)) a) as [Hd Hv]; [lia| |].
    { pose proof (Z.log2_nonneg a). lia. }
    eexists NoSign, _. split; [by rewrite app_empty_l|]. split; [done|].
    split; [|by left]. unfold literal_value. by rewrite <- decimal_numeral, Hv.
Qed.

Lemma to_string_chars a c :
  c ∈ chars (to_string a) -> c = "-"%char \/ is_digit c.
Proof.
  destruct (to_string_literal a) as (sg & d & -> & [_ Hd] & _ & Hsg).
  rewrite chars_app, elem_of_app. intros [Hc|Hc].
  - destruct Hsg as [-> | ->]; simpl in Hc.
    + by apply elem_of_nil in Hc.
    + apply list_elem_of_singleton in Hc. by left.
  - right. rewrite Forall_forall in Hd. by apply Hd.
Qed.

Lemma to_string_no_char a c :
  c <> "-"%char -> ~ is_digit c -> c ∉ chars (to_string a).
Proof. intros H1 H2 [?|?]%to_string_chars; done. Qed.

Lemma stoi_to_string a :
  INT_MIN <= a <= INT_MAX -> stoi (to_string a) = inr a.
Proof.
  intros Ha. destruct (to_string_literal a) as (sg & d & -> & Hd & Hv & _).
  rewrite <- (app_empty_r d), stoi_literal, Hv by done.
  destruct (Z.leb_spec INT_MIN a), (Z.leb_spec a INT_MAX); simpl; first [done | lia].
Qed.

(** A record written as a line is read back: for a name without a comma
    and with no space at either end, an email with no space at either end
    and an age that is an [int], [parseUserData] on the name, the age as
    [to_string] writes it and the email, joined by commas, returns the
    record. In particular [stoi] reads back what [to_string] writes. *)
Theorem parseUserData_to_string :
  (forall a, INT_MIN <= a <= INT_MAX -> stoi (to_string a) = inr a) /\
  (forall u,
     ","%char ∉ chars (name u) ->
     no_space_around (name u) -> no_space_around (email u) ->
     INT_MIN <= age u <= INT_MAX ->
     parseUserData (name u +:+ "," +:+ to_string (age u) +:+ "," +:+ email u) =
       inr (Some u)).
Proof.
  split; [exact stoi_to_string|].
  intros [n a e]. simpl. intros Hc Hn He Ha.
  assert (Hcomma : ","%char ∉ chars (to_string a)).
  { apply to_string_no_char; [done | unfold is_digit; vm_compute; lia]. }
  assert (Hspace : " "%char ∉ chars (to_string a)).
  { apply to_string_no_char; [done | unfold is_digit; vm_compute; lia]. }
  rewrite (parseUserData_trimmed _ n (to_string a) e n (to_string a) e).
  - by rewrite stoi_to_string.
  - by split.
  - by apply trimmed_self.
  - by apply trimmed_self, no_space_chars.
  - by apply trimmed_self.
Qed.

(** Alice's record, written and read back. *)
Lemma parseUserData_to_string_witness :
  parseUserData ("Alice" +:+ "," +:+ to_string 25 +:+ "," +:+ "alice@example.com") =
    inr (Some (mkUser "Alice" 25 "alice@example.com")).
Proof.
  apply (proj2 parseUserData_to_string (mkUser "Alice" 25 "alice@example.com")).
  - compute_done.
  - apply no_space_chars. compute_done.
  - apply no_space_chars. compute_done.
  - vm_compute. split; discriminate.
Defined.

(** The summary of a record has the commas of its name and of its email and
    no other. So the summary of a record whose name and email hold one comma
    at most together is no line [parseUserData] accepts: what
    [printAllUsers] writes is not what [parseUserData] reads. *)
Theorem getSummary_commas (u : User) :
  occurrences "," (getSummary u) =
    (occurrences "," (name u) + occurrences "," (email u))%nat /\
  ((occurrences "," (name u) + occurrences "," (email u) < 2)%nat ->
   parseUserData (getSummary u) = inr None).
Proof.
  assert (E : occurrences "," (getSummary u) =
              (occurrences "," (name u) + occurrences "," (email u))%nat).
  { unfold getSummary, formatUserInfo. rewrite !occurrences_app.
    assert (occurrences "," (to_string (age u)) = O) as ->.
    { apply occurrences_0, to_string_no_char; [done|].
      unfold is_digit; vm_compute; lia. }
    simpl. lia. }
  split; [done|]. intros H. apply parseUserData_few. by rewrite E.
Qed.

(** Alice's summary is refused as a line. *)
Lemma getSummary_commas_witness :
  parseUserData (getSummary (mkUser "Alice" 25 "alice@example.com")) = inr None.
Proof.
  apply (proj2 (getSummary_commas (mkUser "Alice" 25 "alice@example.com"))).
  vm_compute. lia.
Defined.

(** ** What [batchProcessUsers] hands on *)

Lemma kept_valid line r : kept line = Some r -> validate r = true.
Proof.
  unfold kept. destruct (parseUserData line) as [x|[u|]]; [done| |done].
  destruct (validate u) eqn:V; [|done]. by intros [= <-].
Qed.

Lemma length_omap_le {A B} (f : A -> option B) (l : list A) :
  (length (omap f l) <= length l)%nat.
Proof.
  induction l as [|x l IH]; [done|]. cbn [omap list_omap].
  destruct (f x); simpl; lia.
Qed.

Lemma filterByAgeRange_all users minAge maxAge :
  Forall (fun u => minAge <= age u <= maxAge) users ->
  filterByAgeRange users minAge maxAge = users.
Proof.
  intros H. unfold filterByAgeRange.
  rewrite (fold_push_back_filter
             (fun u => (minAge <=? age u) && (age u <=? maxAge)) id).
  rewrite list_fmap_id. simpl. apply filter_all.
  eapply Forall_impl; [exact H|]. intros u Hu. simpl in Hu.
  apply Is_true_true, andb_true_iff. split; apply Z.leb_le; lia.
Qed.

Lemma validate_age u : validate u = true -> 18 <= age u <= 150.
Proof.
  unfold validate, validateAge. rewrite !andb_true_iff, !Z.leb_le. tauto.
Qed.

(** [batchProcessUsers] throws nothing and returns no more records than it
    was given lines. Every record it returns validates, so each is an adult
    and [filterByAgeRange] with the bounds 18 and 150 keeps them all. *)
Theorem batchProcessUsers_valid (dataList : list string) :
  exists kept_users,
    batchProcessUsers dataList = inr kept_users /\
    (length kept_users <= length dataList)%nat /\
    Forall (fun r => validate r = true) kept_users /\
    Forall (fun r => isAdult r = true) kept_users /\
    filterByAgeRange kept_users 18 150 = kept_users.
Proof.
  exists (omap kept dataList).
  assert (V : Forall (fun r => validate r = true) (omap kept dataList)).
  { apply Forall_forall. intros r (line & _ & H)%list_elem_of_omap.
    by eapply kept_valid. }
  split; [apply (batchProcessUsers_from [])|].
  split; [apply length_omap_le|]. split; [done|]. split.
  - eapply Forall_impl; [exact V|]. apply validate_isAdult.
  - apply filterByAgeRange_all. eapply Forall_impl; [exact V|]. apply validate_age.
Qed.

(** ** More on [calculateAverageAge] *)

Lemma sum_ages_perm l l' : l ≡ₚ l' -> sum_ages l = sum_ages l'.
Proof.
  induction 1 as [|x l l' _ IH|x y l|l l' l'' _ IH1 _ IH2]; simpl; lia.
Qed.

Lemma calculateAverageAge_total users :
  calculateAverageAge users =
  match users with
  | [] => 0%float
  | _ => PrimFloat.div (double_of_int (wrap_int (sum_ages users)))
           (double_of_size (length users))
  end.
Proof.
  destruct users as [|u users]; [done|]. unfold calculateAverageAge.
  change 0 with (wrap_int 0) at 1. by rewrite total_wrapped, Z.add_0_l.
Qed.

Lemma calculateAverageAge_perm l l' :
  l ≡ₚ l' -> calculateAverageAge l = calculateAverageAge l'.
Proof.
  intros H. rewrite !calculateAverageAge_total.
  rewrite (sum_ages_perm _ _ H), (Permutation_length H).
  destruct l as [|x l], l' as [|x' l']; try done.
  - by apply Permutation_nil_cons in H.
  - symmetry in H. by apply Permutation_nil_cons in H.
Qed.

Lemma sum_ages_bounds users lo hi :
  Forall (fun u => lo <= age u <= hi) users ->
  lo * Z.of_nat (length users) <= sum_ages users <= hi * Z.of_nat (length users).
Proof.
  induction 1 as [|u users Hu _ IH]; simpl; [lia|].
  rewrite Nat2Z.inj_succ. lia.
Qed.

(** For records that all validate, 14316557 of them at most, the total of
    the ages lies between 18 and 150 times their number and is an [int]:
    the addition does not wrap, and [calculateAverageAge] is their sum
    divided by their number in double precision. *)
Theorem calculateAverageAge_valid (users : list User) :
  users <> [] ->
  Forall (fun u => validate u = true) users ->
  Z.of_nat (length users) <= 14316557 ->
  18 * Z.of_nat (length users) <= sum_ages users <= 150 * Z.of_nat (length users) /\
  INT_MIN <= sum_ages users <= INT_MAX /\
  calculateAverageAge users =
    PrimFloat.div (double_of_int (sum_ages users)) (double_of_size (length users)).
Proof.
  intros Hne Hv Hlen.
  assert (B : 18 * Z.of_nat (length users) <= sum_ages users
              <= 150 * Z.of_nat (length users)).
  { apply sum_ages_bounds. eapply Forall_impl; [exact Hv|]. apply validate_age. }
  assert (R : INT_MIN <= sum_ages users <= INT_MAX).
  { unfold INT_MIN, INT_MAX. lia. }
  split; [done|]. split; [done|].
  rewrite calculateAverageAge_total, wrap_int_small by done.
  by destruct users.
Qed.

(** Alice and Bob: 27.5. *)
Lemma calculateAverageAge_valid_witness :
  calculateAverageAge
    [mkUser "Alice" 25 "alice@example.com"; mkUser "Bob" 30 "bob@example.com"] =
  27.5%float.
Proof.
  rewrite (proj2 (proj2 (calculateAverageAge_valid
    [mkUser "Alice" 25 "alice@example.com"; mkUser "Bob" 30 "bob@example.com"]
    ltac:(discriminate) ltac:(by repeat constructor) ltac:(simpl; lia)))).
  reflexivity.
Defined.

Section AverageOfSorted.
Variable std_sort : forall A, (A -> A -> bool) -> list A -> list A.
Hypothesis std_sort_conforms : sort_contract std_sort.

(** [calculateAverageAge] does not depend on the order of the records:
    it returns the same on every rearrangement of a collection, so also
    after [sortByAge], in either direction, with a [std::sort] that keeps
    the contract of the standard. *)
Theorem calculateAverageAge_sortByAge (users : list User) :
  (forall users', users ≡ₚ users' ->
     calculateAverageAge users' = calculateAverageAge users) /\
  (forall ascending,
     calculateAverageAge (sortByAge std_sort users ascending) =
     calculateAverageAge users).
Proof.
  split.
  - intros users' H. symmetry. by apply calculateAverageAge_perm.
  - intros ascending. symmetry. apply calculateAverageAge_perm.
    unfold sortByAge.
    by destruct (std_sort_conforms User (age_comp ascending) users
                   (age_comp_strict_weak_order ascending)) as [? _].
Qed.
End AverageOfSorted.

(** With merge sort for [std::sort], on records of ages 35, 30 and 31. *)
Lemma calculateAverageAge_sortByAge_witness :
  calculateAverageAge
    (sortByAge merge_std_sort
       [mkUser "a" 35 "a@x"; mkUser "b" 30 "b@x"; mkUser "c" 31 "c@x"] false) =
  32%float.
Proof.
  rewrite (proj2 (calculateAverageAge_sortByAge merge_std_sort
                    merge_std_sort_contract _)).
  reflexivity.
Defined.

(** ** Setters called through handles *)

(** A handle the registry holds still points to the record: a setter called
    through it changes the stored record. [setName] and [setAge] through any
    handle, and [setEmail] through a handle the registry does not hold,
    leave every entry under the email of its record; [setEmail] to another
    email through a handle the registry holds does not. After [setAge] to
    less than 18 through a stored handle the record is still found by
    [getUser] under its key but no longer returned by [getAdultUsers]. *)
Theorem setters_through_handles (w : World) (p : loc) :
  keyed_by_email w ->
  (forall n, keyed_by_email (update p (setName n) w).2) /\
  (forall a, keyed_by_email (update p (setAge a) w).2) /\
  (forall e, ~ stored w p -> keyed_by_email (update p (setEmail e) w).2) /\
  (forall e, stored w p -> e <> email (store w p) ->
     ~ keyed_by_email (update p (setEmail e) w).2) /\
  (forall a key, a < 18 -> users w !! key = Some p ->
     (getUser key (update p (setAge a) w).2).1 = Some p /\
     p ∉ (getAdultUsers (update p (setAge a) w).2).1).
Proof.
  intros Hk.
  assert (Hsame : forall f,
    (forall u, email (f u) = email u) -> keyed_by_email (update p f w).2).
  { intros f Hf key q Hq. simpl in *.
    destruct (decide (p = q)) as [<-|Hne].
    - rewrite fn_lookup_insert, Hf. by apply Hk.
    - rewrite fn_lookup_insert_ne by done. by apply Hk. }
  split; [intros n; by apply Hsame|]. split; [intros a; by apply Hsame|].
  split; [|split].
  - intros e Hp key q Hq. simpl in *.
    rewrite fn_lookup_insert_ne; [by apply Hk|]. intros <-. apply Hp. by exists key.
  - intros e [key Hp] Hne Hk'. specialize (Hk' key p Hp). simpl in Hk'.
    rewrite fn_lookup_insert in Hk'. simpl in Hk'.
    apply Hne. rewrite Hk'. symmetry. by apply Hk.
  - intros a key Ha Hp. split; [done|].
    rewrite getAdultUsers_filter. simpl.
    intros ([key' q] & -> & [Hq _]%list_elem_of_filter)%list_elem_of_fmap.
    simpl in Hq. rewrite fn_lookup_insert in Hq. unfold isAdult in Hq. simpl in Hq.
    apply Is_true_true, Z.leb_le in Hq. lia.
Qed.

(** Alice, stored, is set to the age of 17 through her handle. *)
Lemma setters_through_handles_witness :
  let alice := mkUser "Alice" 25 "alice@example.com" in
  let w := (addUser 0%nat (mkWorld (fun _ => alice) ∅ [])).2 in
  (getUser "alice@example.com" (update 0%nat (setAge 17) w).2).1 = Some 0%nat /\
  0%nat ∉ (getAdultUsers (update 0%nat (setAge 17) w).2).1.
Proof.
  intros alice w.
  apply (proj2 (proj2 (proj2 (proj2 (setters_through_handles w 0%nat
    ltac:(eapply keyed_by_email_step; [|apply step_addUser];
          intros key q; simpl; by rewrite lookup_empty)))))).
  - lia.
  - reflexivity.
Defined.
